(** * Markdown-to-terminal renderer of llm-cli: model and properties

    The renderer ([RenderMarkdown], [renderLine], [renderInlineFormatting])
    is embedded as pure functions over byte strings.  A Go [string] is a
    sequence of bytes, modelled as [list ascii].

    The renderer calls Go's [strings] and [regexp] packages.  The few
    [strings] functions are written out on lists.  The regular expressions
    are kept as data (a list of nodes transcribed from each pattern literal)
    and run by a small backtracking matcher with the leftmost-first
    semantics of Go's [regexp]: alternatives are tried in priority order and
    the first success wins, a lazy star tries to stop before it tries to
    consume, a greedy one the other way round.

    The matcher works on bytes where Go works on UTF-8 runes.  For the
    patterns of this program the two agree: every literal and every
    character named in a class is ASCII, an ASCII byte never occurs inside
    the encoding of another rune, and a byte that does not decode is read
    by Go as one rune of width one, which the negated classes and [.]
    accept just as they accept the byte. *)

From Stdlib Require Import String Ascii List Arith ZArith Lia Bool.
From Stdlib Require Decimal DecimalString.
Import ListNotations.

Local Open Scope char_scope.
Local Open Scope list_scope.

(** ** Byte strings *)

Definition bytes : Type := list ascii.

(** A string literal as bytes. *)
Definition lit (s : string) : bytes := list_ascii_of_string s.

Definition nl : ascii := "010".
Definition ESC : ascii := "027".

(** ** ANSI escape codes for terminal formatting *)

Definition Reset : bytes := ESC :: lit "[0m".
Definition Bold : bytes := ESC :: lit "[1m".
Definition Italic : bytes := ESC :: lit "[3m".
Definition Underline : bytes := ESC :: lit "[4m".
Definition Green : bytes := ESC :: lit "[32m".
Definition Yellow : bytes := ESC :: lit "[33m".
Definition Blue : bytes := ESC :: lit "[34m".
Definition Magenta : bytes := ESC :: lit "[35m".
Definition Cyan : bytes := ESC :: lit "[36m".

(** The bullet of a list item, U+2022 followed by a space, in UTF-8. *)
Definition bullet : bytes := ["226"; "128"; "162"; " "].

(** ** The functions of Go's [strings] package that the renderer uses *)

Fixpoint HasPrefix (s prefix : bytes) {struct prefix} : bool :=
  match prefix, s with
  | [], _ => true
  | p :: prefix', c :: s' => Ascii.eqb c p && HasPrefix s' prefix'
  | _ :: _, [] => false
  end.

Definition TrimPrefix (s prefix : bytes) : bytes :=
  if HasPrefix s prefix then skipn (length prefix) s else s.

Definition HasSuffix (s suffix : bytes) : bool :=
  HasPrefix (rev s) (rev suffix).

Definition TrimSuffix (s suffix : bytes) : bytes :=
  if HasSuffix s suffix then firstn (length s - length suffix) s else s.

(** [strings.Split(s, sep)] for a separator of one byte: the pieces between
    the separators, in order; always at least one piece. *)
Fixpoint Split (s : bytes) (sep : ascii) : list bytes :=
  match s with
  | [] => [[]]
  | c :: s' =>
      if Ascii.eqb c sep then [] :: Split s' sep
      else match Split s' sep with
           | piece :: pieces => (c :: piece) :: pieces
           | [] => [[c]]
           end
  end.

(** ** Regular expressions *)

Module Regexp.

(** Character classes of the program's patterns. *)
Inductive cclass : Type :=
| CNot (cs : bytes)   (* [^...] *)
| CDigit              (* \d *)
| CDot.               (* . , which does not match a newline *)

Definition is_digit (c : ascii) : bool :=
  ((48 <=? nat_of_ascii c) && (nat_of_ascii c <=? 57))%nat.

Definition cmatch (k : cclass) (c : ascii) : bool :=
  match k with
  | CNot cs => negb (existsb (Ascii.eqb c) cs)
  | CDigit => is_digit c
  | CDot => negb (Ascii.eqb c nl)
  end.

(** A pattern is the sequence of its nodes. *)
Inductive node : Type :=
| Bol                    (* ^ : beginning of text *)
| Lit (c : ascii)        (* a literal byte, escaped or not *)
| LazyStar (k : cclass)  (* k*? *)
| Star (k : cclass)      (* k* *)
| Plus (k : cclass)      (* k+ *)
| GOpen                  (* ( *)
| GClose.                (* ) *)

Definition regex : Type := list node.

(** The matcher threads the offset [i] from the start of the match and the
    offsets [marks] at which parentheses were passed, latest first.  It
    answers the offset of the end of the match and the marks. *)
Definition cont : Type :=
  bytes -> nat -> list nat -> option (nat * list nat).

Fixpoint lazy_star (k : cclass) (rest : cont) (s : bytes) (i : nat)
  (marks : list nat) : option (nat * list nat) :=
  match rest s i marks with
  | Some r => Some r
  | None =>
      match s with
      | x :: s' => if cmatch k x then lazy_star k rest s' (S i) marks else None
      | [] => None
      end
  end.

Fixpoint greedy_star (k : cclass) (rest : cont) (s : bytes) (i : nat)
  (marks : list nat) : option (nat * list nat) :=
  match s with
  | x :: s' =>
      if cmatch k x then
        match greedy_star k rest s' (S i) marks with
        | Some r => Some r
        | None => rest s i marks
        end
      else rest s i marks
  | [] => rest s i marks
  end.

(** [exec bot p s i marks]: match [p] against a prefix of [s]; [bot] tells
    whether the match starts at the beginning of the text. *)
Fixpoint exec (bot : bool) (p : regex) : cont :=
  match p with
  | [] => fun _ i marks => Some (i, marks)
  | Bol :: p' =>
      fun s i marks => if bot && (i =? 0)%nat then exec bot p' s i marks else None
  | Lit c :: p' =>
      fun s i marks =>
        match s with
        | x :: s' => if Ascii.eqb x c then exec bot p' s' (S i) marks else None
        | [] => None
        end
  | LazyStar k :: p' => lazy_star k (exec bot p')
  | Star k :: p' => greedy_star k (exec bot p')
  | Plus k :: p' =>
      fun s i marks =>
        match s with
        | x :: s' =>
            if cmatch k x then greedy_star k (exec bot p') s' (S i) marks
            else None
        | [] => None
        end
  | GOpen :: p' => fun s i marks => exec bot p' s i (i :: marks)
  | GClose :: p' => fun s i marks => exec bot p' s i (i :: marks)
  end.

(** The groups of the program's patterns are not nested, so the marks in
    the order passed are opening, closing, opening, closing, ... *)
Fixpoint pair_up (ms : list nat) : list (nat * nat) :=
  match ms with
  | a :: b :: ms' => (a, b) :: pair_up ms'
  | _ => []
  end.

Definition substr (s : bytes) (a b : nat) : bytes :=
  firstn (b - a) (skipn a s).

(** The whole match followed by the text of each group. *)
Definition submatches (s : bytes) (n : nat) (marks : list nat) : list bytes :=
  firstn n s :: map (fun ab => substr s (fst ab) (snd ab)) (pair_up (rev marks)).

(** Leftmost match: each start is tried in turn, the end of the text too. *)
Fixpoint search (p : regex) (bot : bool) (s : bytes) : option (list bytes) :=
  match exec bot p s 0 [] with
  | Some (n, marks) => Some (submatches s n marks)
  | None =>
      match s with
      | _ :: s' => search p false s'
      | [] => None
      end
  end.

Definition MatchString (p : regex) (s : bytes) : bool :=
  match search p true s with
  | Some _ => true
  | None => false
  end.

(** [FindStringSubmatch] answers a nil slice when there is no match. *)
Definition FindStringSubmatch (p : regex) (s : bytes) : list bytes :=
  match search p true s with
  | Some m => m
  | None => []
  end.

(** *** Replacement templates

    In a template [$name] stands for a group, where [name] is the longest
    run of letters, digits and underscores; a numeric name is the index of
    the group, and a group that does not exist is empty.  [$$] is a literal
    dollar, and a dollar followed by neither is kept as it is.  The braced
    form is not used by the program and not modelled. *)

Definition is_name_char (c : ascii) : bool :=
  let n := nat_of_ascii c in
  (((48 <=? n) && (n <=? 57)) || ((65 <=? n) && (n <=? 90))
   || ((97 <=? n) && (n <=? 122)) || (n =? 95))%nat.

(** Value of a decimal name read backwards; [None] if it is not numeric. *)
Fixpoint index_of_rev_name (rname : bytes) : option nat :=
  match rname with
  | [] => Some 0
  | c :: r =>
      if is_digit c then
        match index_of_rev_name r with
        | Some n => Some (10 * n + (nat_of_ascii c - 48))
        | None => None
        end
      else None
  end.

Definition variable (rname : bytes) (m : list bytes) : bytes :=
  match rname with
  | [] => ["$"]
  | _ =>
      match index_of_rev_name rname with
      | Some n => nth n m []
      | None => []
      end
  end.

(** [pending] is [Some rname] after a dollar, [rname] being the name read
    so far, backwards. *)
Fixpoint expand_from (pending : option bytes) (tmpl : bytes) (m : list bytes)
  : bytes :=
  match tmpl with
  | [] =>
      match pending with
      | Some rname => variable rname m
      | None => []
      end
  | c :: t =>
      match pending with
      | None =>
          if Ascii.eqb c "$" then expand_from (Some []) t m
          else c :: expand_from None t m
      | Some rname =>
          if is_name_char c then expand_from (Some (c :: rname)) t m
          else if Ascii.eqb c "$" then
            match rname with
            | [] => "$" :: expand_from None t m
            | _ => variable rname m ++ expand_from (Some []) t m
            end
          else variable rname m ++ c :: expand_from None t m
      end
  end.

Definition expand (tmpl : bytes) (m : list bytes) : bytes :=
  expand_from None tmpl m.

(** *** Replacing every match

    [replace_scan] walks the text.  With [skip = 0] it tries a match at the
    current position: on success the expanded template is emitted and the
    matched bytes are skipped, otherwise the byte is copied.  Every pattern
    of the program begins with a literal, so a match is never empty; the
    library's rule for empty matches is not modelled, and an empty match
    counts as none. *)
Fixpoint replace_scan (p : regex) (repl : bytes) (bot : bool) (skip : nat)
  (s : bytes) : bytes :=
  match skip with
  | S k =>
      match s with
      | _ :: s' => replace_scan p repl false k s'
      | [] => []
      end
  | 0 =>
      match exec bot p s 0 [] with
      | Some (S k, marks) =>
          expand repl (submatches s (S k) marks)
          ++ match s with
             | _ :: s' => replace_scan p repl false k s'
             | [] => []
             end
      | _ =>
          match s with
          | x :: s' => x :: replace_scan p repl false 0 s'
          | [] => []
          end
      end
  end.

Definition ReplaceAllString (p : regex) (src repl : bytes) : bytes :=
  replace_scan p repl true 0 src.

End Regexp.

Import Regexp.

(** ** The patterns of the renderer *)

(** [^\d+\. ] *)
Definition numberedRe : regex := [Bol; Plus CDigit; Lit "."; Lit " "].

(** [^(\d+\. )(R)], where [R] is the dot under a greedy star. *)
Definition numberedPartsRe : regex :=
  [Bol; GOpen; Plus CDigit; Lit "."; Lit " "; GClose; GOpen; Star CDot; GClose].

(** [\*\*([^\*\n]*?)\*\*] *)
Definition boldRe : regex :=
  [Lit "*"; Lit "*"; GOpen; LazyStar (CNot ["*"; nl]); GClose; Lit "*"; Lit "*"].

(** [__([^_\n]*?)__] *)
Definition boldRe2 : regex :=
  [Lit "_"; Lit "_"; GOpen; LazyStar (CNot ["_"; nl]); GClose; Lit "_"; Lit "_"].

(** [\*([^\*\n]*?)\*] *)
Definition italicRe : regex :=
  [Lit "*"; GOpen; LazyStar (CNot ["*"; nl]); GClose; Lit "*"].

(** [_([^_\n]*?)_] *)
Definition italicRe2 : regex :=
  [Lit "_"; GOpen; LazyStar (CNot ["_"; nl]); GClose; Lit "_"].

(** The pattern between double quotes: a backtick, [([^`\n]*?)], a backtick. *)
Definition codeRe : regex :=
  [Lit "`"; GOpen; LazyStar (CNot ["`"; nl]); GClose; Lit "`"].

(** [\[([^\]\n]*?)\]\([^)\n]*?\)] *)
Definition linkRe : regex :=
  [Lit "["; GOpen; LazyStar (CNot ["]"; nl]); GClose; Lit "]";
   Lit "("; LazyStar (CNot [")"; nl]); Lit ")"].

(** ** The renderer *)

Definition renderInlineFormatting (text : bytes) : bytes :=
  (* Process bold first to avoid conflicts with italic *)
  let text := ReplaceAllString boldRe text (Bold ++ lit "$1" ++ Reset) in
  let text := ReplaceAllString boldRe2 text (Bold ++ lit "$1" ++ Reset) in
  (* Then process italic *)
  let text := ReplaceAllString italicRe text (Italic ++ lit "$1" ++ Reset) in
  let text := ReplaceAllString italicRe2 text (Italic ++ lit "$1" ++ Reset) in
  (* Inline code *)
  let text := ReplaceAllString codeRe text (Cyan ++ lit "$1" ++ Reset) in
  (* Links *)
  let text :=
    ReplaceAllString linkRe text (Blue ++ Underline ++ lit "$1" ++ Reset) in
  text.

Definition renderLine (line : bytes) : bytes :=
  (* Handle headers *)
  if HasPrefix line (lit "### ") then
    Yellow ++ Bold ++ TrimPrefix line (lit "### ") ++ Reset
  else if HasPrefix line (lit "## ") then
    Blue ++ Bold ++ TrimPrefix line (lit "## ") ++ Reset
  else if HasPrefix line (lit "# ") then
    Magenta ++ Bold ++ TrimPrefix line (lit "# ") ++ Reset
  (* Handle code blocks *)
  else if HasPrefix line (lit "```") then
    Cyan ++ line ++ Reset
  (* Handle bullet points *)
  else if HasPrefix line (lit "- ") || HasPrefix line (lit "* ") then
    Green ++ bullet ++ Reset
    ++ TrimPrefix (TrimPrefix line (lit "- ")) (lit "* ")
  else
    (* Handle numbered lists *)
    let numbered :=
      if MatchString numberedRe line then
        let matches := FindStringSubmatch numberedPartsRe line in
        if (length matches =? 3)%nat then
          Some (Yellow ++ nth 1 matches [] ++ Reset ++ nth 2 matches [])
        else None
      else None in
    match numbered with
    | Some rendered => rendered
    | None =>
        (* Handle inline formatting *)
        renderInlineFormatting line
    end.

(** The loop appends each rendered line and a newline to the builder. *)
Definition RenderMarkdown (markdown : bytes) : bytes :=
  let lines := Split markdown nl in
  let result :=
    fold_left (fun result line => result ++ (renderLine line ++ [nl])) lines []
  in
  TrimSuffix result [nl].

(** The six substitutions of [renderInlineFormatting], in order. *)
Definition inlineSteps : list (regex * bytes) :=
  [ (boldRe, Bold ++ lit "$1" ++ Reset);
    (boldRe2, Bold ++ lit "$1" ++ Reset);
    (italicRe, Italic ++ lit "$1" ++ Reset);
    (italicRe2, Italic ++ lit "$1" ++ Reset);
    (codeRe, Cyan ++ lit "$1" ++ Reset);
    (linkRe, Blue ++ Underline ++ lit "$1" ++ Reset) ].

Definition applyStep (text : bytes) (step : regex * bytes) : bytes :=
  ReplaceAllString (fst step) text (snd step).

(** The five span substitutions: delimiter, pattern and style. *)
Definition spanTable : list (bytes * regex * bytes) :=
  [ (lit "**", boldRe, Bold);
    (lit "__", boldRe2, Bold);
    (lit "*", italicRe, Italic);
    (lit "_", italicRe2, Italic);
    (lit "`", codeRe, Cyan) ].

(** ** Specification-side definitions *)

(** The lines of a document joined by newlines, none after the last. *)
Fixpoint join_lines (lines : list bytes) : bytes :=
  match lines with
  | [] => []
  | [l] => l
  | l :: ls => l ++ nl :: join_lines ls
  end.

(** Rendering as the specification words it: split, render each line on
    its own, rejoin. *)
Definition render_by_lines (markdown : bytes) : bytes :=
  join_lines (map renderLine (Split markdown nl)).

(** No byte of [cs] occurs in [s]. *)
Definition free_of (cs : bytes) (s : bytes) : Prop :=
  forall c, In c cs -> ~ In c s.

(** A line that begins with one or more digits, a period and a space. *)
Definition numbered_prefix (l : bytes) : Prop :=
  exists ds rest,
    ds <> [] /\ forallb is_digit ds = true /\ l = ds ++ lit ". " ++ rest.

(** How many times the byte [c] occurs in [s]. *)
Definition occurrences (c : ascii) (s : bytes) : nat :=
  count_occ ascii_dec s c.

(** The characters the specification calls Markdown metacharacters. *)
Definition metachars : bytes := lit "*_`#-[]()".




(** The pattern [p] matches in [text] at offset [pos]. *)
Definition matches_at (p : regex) (text : bytes) (pos : nat) : Prop :=
  exists r, exec (pos =? 0)%nat p (skipn pos text) 0 [] = Some r.

(** ** Proof-side descriptions of a substitution pass *)

(** The patterns for bold, italic and code have one shape: an opening
    literal, a group holding a lazy star of a class, a closing literal. *)
Definition spanRe (opener : bytes) (k : cclass) (closer : bytes) : regex :=
  map Lit opener ++ [GOpen; LazyStar k; GClose] ++ map Lit closer.

(** What a match of such a pattern looks like: [m] is the matched text and
    [cap] the text of its group. *)
Definition span_shape (opener : bytes) (k : cclass) (closer : bytes)
  (m cap : bytes) : Prop :=
  m = opener ++ cap ++ closer /\ forallb (cmatch k) cap = true.

Definition link_shape (m cap : bytes) : Prop :=
  exists target,
    m = lit "[" ++ cap ++ lit "](" ++ target ++ lit ")"
    /\ forallb (cmatch (CNot ["]"; nl])) cap = true
    /\ forallb (cmatch (CNot [")"; nl])) target = true.

(** A pass with a span pattern, and the link pass. *)
Definition spanStep (opener : bytes) (k : cclass) (closer repl s : bytes)
  : bytes :=
  ReplaceAllString (spanRe opener k closer) s repl.

Definition linkStep (s : bytes) : bytes :=
  ReplaceAllString linkRe s (Blue ++ Underline ++ lit "$1" ++ Reset).

Definition boldStep : bytes -> bytes :=
  spanStep (lit "**") (CNot ["*"; nl]) (lit "**") (Bold ++ lit "$1" ++ Reset).
Definition boldStep2 : bytes -> bytes :=
  spanStep (lit "__") (CNot ["_"; nl]) (lit "__") (Bold ++ lit "$1" ++ Reset).
Definition italicStep : bytes -> bytes :=
  spanStep (lit "*") (CNot ["*"; nl]) (lit "*") (Italic ++ lit "$1" ++ Reset).
Definition italicStep2 : bytes -> bytes :=
  spanStep (lit "_") (CNot ["_"; nl]) (lit "_") (Italic ++ lit "$1" ++ Reset).
Definition codeStep : bytes -> bytes :=
  spanStep (lit "`") (CNot ["`"; nl]) (lit "`") (Cyan ++ lit "$1" ++ Reset).

(** [Rewrites shape style s out]: [out] is [s] with some occurrences of
    texts [m] of the given shape replaced by [style ++ cap ++ Reset], the
    other bytes copied. *)
Inductive Rewrites (shape : bytes -> bytes -> Prop) (style : bytes)
  : bytes -> bytes -> Prop :=
| rw_nil : Rewrites shape style [] []
| rw_copy x s out :
    Rewrites shape style s out -> Rewrites shape style (x :: s) (x :: out)
| rw_match m cap s out :
    shape m cap ->
    Rewrites shape style s out ->
    Rewrites shape style (m ++ s) (style ++ cap ++ Reset ++ out).



(** ** Provider selection and shell detection *)

(** A Go error value, by its message; [None] is [nil]. *)
Definition error : Type := bytes.

Inductive APIProvider : Type :=
| Claude
| OpenAI
| Ollama.

(** [s != ""] *)
Definition nonempty (s : bytes) : bool :=
  match s with
  | [] => false
  | _ :: _ => true
  end.

Definition bytes_eq_dec : forall a b : bytes, {a = b} + {a <> b} :=
  list_eq_dec ascii_dec.

(** [Getenv] is [os.Getenv]: the value of a variable, empty when the
    variable is not set.  The answer is the triple the function returns. *)
Definition determineAPIProvider (Getenv : bytes -> bytes)
  : APIProvider * bytes * option error :=
  (* Check for Claude API key first *)
  let apiKey := Getenv (lit "ANTHROPIC_API_KEY") in
  if nonempty apiKey then (Claude, apiKey, None)
  else
    (* Check for OpenAI API key *)
    let apiKey := Getenv (lit "OPENAI_API_KEY") in
    if nonempty apiKey then (OpenAI, apiKey, None)
    else
      (* Check for Ollama model *)
      let model := Getenv (lit "OLLAMA_MODEL") in
      if nonempty model then (Ollama, model, None)
      else (Claude, [], Some (lit "no API key or Ollama model found")).

(** [GOOS] is [runtime.GOOS]. *)
Definition getShell (Getenv : bytes -> bytes) (GOOS : bytes) : bytes :=
  let shell := Getenv (lit "SHELL") in
  if negb (nonempty shell) then
    if bytes_eq_dec GOOS (lit "windows") then lit "cmd/powershell"
    else lit "sh"
  else
    (* Extract just the shell name *)
    let parts := Split shell "/" in
    nth (length parts - 1) parts [].

(** The variable that holds the credential of a provider. *)
Definition credentialVariable (provider : APIProvider) : bytes :=
  match provider with
  | Claude => lit "ANTHROPIC_API_KEY"
  | OpenAI => lit "OPENAI_API_KEY"
  | Ollama => lit "OLLAMA_MODEL"
  end.

(** Position of a provider in the order of preference. *)
Definition preference (provider : APIProvider) : nat :=
  match provider with
  | Claude => 0
  | OpenAI => 1
  | Ollama => 2
  end.

(** The variant of src/main.go, which also asks the [pass] program for the
    Claude key. *)
Module MainGo.

Section External.

(** [strings.TrimSpace], [os.Getenv], [exec.LookPath] and the output of
    [exec.Command(name, args...).Output()], the command given as the list
    of its name and arguments. *)
Variable TrimSpace : bytes -> bytes.
Variable Getenv : bytes -> bytes.
Variable LookPath : bytes -> bytes * option error.
Variable Output : list bytes -> bytes * option error.

Definition getAnthropicAPIKey (passKeyName : bytes) : bytes * option error :=
  (* Try environment variable first *)
  let apiKey := Getenv (lit "ANTHROPIC_API_KEY") in
  if nonempty apiKey then (apiKey, None)
  else
    (* Check if pass program is available *)
    match snd (LookPath (lit "pass")) with
    | Some err => ([], Some err)
    | None =>
        (* Determine pass key name *)
        let keyName :=
          if (0 <? length passKeyName)%nat then passKeyName
          else lit "anthropic.com" in
        (* Execute pass show keyName *)
        match Output [lit "pass"; lit "show"; keyName] with
        | (_, Some err) => ([], Some err)
        | (output, None) => (TrimSpace output, None)
        end
    end.

Definition determineAPIProvider : APIProvider * bytes * option error :=
  (* Check for Claude API key first *)
  let apiKey := Getenv (lit "ANTHROPIC_API_KEY") in
  if nonempty apiKey then (Claude, apiKey, None)
  else
    (* Try to get Claude API key from pass *)
    let (claudeKey, err) := getAnthropicAPIKey [] in
    if match err with None => true | Some _ => false end && nonempty claudeKey
    then (Claude, claudeKey, None)
    else
      (* Check for OpenAI API key *)
      let apiKey := Getenv (lit "OPENAI_API_KEY") in
      if nonempty apiKey then (OpenAI, apiKey, None)
      else
        (* Check for Ollama model *)
        let model := Getenv (lit "OLLAMA_MODEL") in
        if nonempty model then (Ollama, model, None)
        else (Claude, [], Some (lit "no API key or Ollama model found")).

End External.

End MainGo.

(** ** The entry point *)

Definition tab : ascii := "009".

(** [a == b] on strings. *)
Definition bytes_eqb (a b : bytes) : bool :=
  if bytes_eq_dec a b then true else false.

Definition version : bytes := lit "1.0.0".

(** What [printUsage] writes to standard output. *)
Definition printUsage : bytes :=
  lit "llm - Multi-API Command Suggester v" ++ version
    ++ [nl]
    ++ [nl]
    ++ lit "USAGE:" ++ [nl]
    ++ lit "    llm <description of what you want to do>" ++ [nl]
    ++ [nl]
    ++ lit "EXAMPLES:" ++ [nl]
    ++ lit "    llm search for foo in directory" ++ [nl]
    ++ lit "    llm list files by size" ++ [nl]
    ++ lit "    llm find files modified today" ++ [nl]
    ++ lit "    llm compress this directory" ++ [nl]
    ++ lit "    llm show disk usage" ++ [nl]
    ++ [tab] ++ lit "llm --code write a python function to diff a file" ++ [nl]
    ++ [tab] ++ lit "llm --explain explain the cp command" ++ [nl]
    ++ [nl]
    ++ lit "SETUP:" ++ [nl]
    ++ lit "    Set one of the following environment variables:" ++ [nl]
    ++ lit "    export ANTHROPIC_API_KEY=your_claude_api_key" ++ [nl]
    ++ lit "    export OPENAI_API_KEY=your_openai_api_key" ++ [nl]
    ++ lit "    export OLLAMA_MODEL=your_ollama_model_name" ++ [nl]
    ++ [nl]
    ++ lit "    The script will automatically detect which API key or Ollama model is available and use the corresponding service." ++ [nl]
    ++ lit "    Priority order: Claude > OpenAI > Ollama" ++ [nl]
    ++ [nl]
    ++ lit "OPTIONS:" ++ [nl]
    ++ lit "    -h, --help     Show this help message" ++ [nl]
    ++ lit "    -v, --version  Show version information" ++ [nl]
    ++ lit "    -c, --code     Code generation mode" ++ [nl]
    ++ lit "    -x, --explain  Explanation mode" ++ [nl].

(** What a run writes and the status it ends with. *)
Record Result : Type := {
  Stdout : bytes;
  Stderr : bytes;
  ExitCode : nat
}.

(** [main], with the arguments and the environment made explicit.  What
    follows the handling of the version flag (the parsing of the flags, the
    prompt, the query and the printing of the answer) is the parameter
    [rest], given the provider and the credential. *)
Definition main (Args : list bytes) (Getenv : bytes -> bytes)
  (rest : APIProvider -> bytes -> Result) : Result :=
  if (length Args <? 2)%nat then
    {| Stdout := printUsage; Stderr := []; ExitCode := 1 |}
  else
    (* Determine which API to use *)
    match determineAPIProvider Getenv with
    | (_, _, Some err) =>
        {| Stdout := [];
           Stderr :=
             (lit "Error: " ++ err ++ [nl])
             ++ (lit "Set one of the following environment variables:" ++ [nl])
             ++ (lit "  export ANTHROPIC_API_KEY=your_claude_api_key" ++ [nl])
             ++ (lit "  export OPENAI_API_KEY=your_openai_api_key" ++ [nl]);
           ExitCode := 1 |}
    | (provider, apiKey, None) =>
        (* Handle help and version flags *)
        if bytes_eqb (nth 1 Args []) (lit "--help")
           || bytes_eqb (nth 1 Args []) (lit "-h")
        then {| Stdout := printUsage; Stderr := []; ExitCode := 0 |}
        else if bytes_eqb (nth 1 Args []) (lit "--version")
                || bytes_eqb (nth 1 Args []) (lit "-v")
        then {| Stdout := lit "llm version " ++ version ++ [nl];
                Stderr := []; ExitCode := 0 |}
        else rest provider apiKey
    end.

(** ** The API clients *)

Definition claudeAPIURL : bytes := lit "https://api.anthropic.com/v1/messages".
Definition openaiAPIURL : bytes :=
  lit "https://api.openai.com/v1/chat/completions".
Definition ollamaAPIURL : bytes := lit "http://localhost:11434/api/generate".

(** The structs of the three APIs; a field [F] of a struct [S] is [S_F]. *)
Record Message : Type := {
  Message_Role : bytes;
  Message_Content : bytes
}.

Record ClaudeRequest : Type := {
  ClaudeRequest_Model : bytes;
  ClaudeRequest_MaxTokens : Z;
  ClaudeRequest_Messages : list Message
}.

Record APIError : Type := {
  APIError_Type : bytes;
  APIError_Message : bytes
}.

Record ContentBlock : Type := {
  ContentBlock_Type : bytes;
  ContentBlock_Text : bytes
}.

Record ClaudeResponse : Type := {
  ClaudeResponse_Content : list ContentBlock;
  ClaudeResponse_Error : option APIError
}.

Record OpenAIMessage : Type := {
  OpenAIMessage_Role : bytes;
  OpenAIMessage_Content : bytes
}.

(** The temperature is kept as the decimal literal of the source. *)
Record OpenAIRequest : Type := {
  OpenAIRequest_Model : bytes;
  OpenAIRequest_Messages : list OpenAIMessage;
  OpenAIRequest_MaxTokens : Z;
  OpenAIRequest_Temperature : Decimal.decimal
}.

Record OpenAIChoice : Type := {
  OpenAIChoice_Message : OpenAIMessage
}.

Record OpenAIResponse : Type := {
  OpenAIResponse_Choices : list OpenAIChoice;
  OpenAIResponse_Error : option APIError
}.

Record OllamaRequest : Type := {
  OllamaRequest_Model : bytes;
  OllamaRequest_Prompt : bytes;
  OllamaRequest_Stream : bool
}.

Record OllamaResponse : Type := {
  OllamaResponse_Response : bytes;
  OllamaResponse_Error : option APIError
}.

(** An HTTP request as the clients build it, and what they look at in a
    response: the status code and the outcome of [io.ReadAll] on the
    body. *)
Record Request : Type := {
  Request_Method : bytes;
  Request_URL : bytes;
  Request_Header : list (bytes * bytes);
  Request_Body : bytes
}.

Record Response : Type := {
  Response_StatusCode : Z;
  Response_Body : bytes * option error
}.

(** [http.NewRequest]: with the method POST and the three constant URLs it
    answers a request and no error. *)
Definition NewRequest (method url body : bytes) : Request * option error :=
  ({| Request_Method := method; Request_URL := url; Request_Header := [];
      Request_Body := body |}, None).

(** [req.Header.Set(key, value)]; the keys are kept as the program writes
    them. *)
Definition Header_Set (req : Request) (key value : bytes) : Request :=
  {| Request_Method := Request_Method req;
     Request_URL := Request_URL req;
     Request_Header :=
       filter (fun kv => negb (bytes_eqb (fst kv) key)) (Request_Header req)
       ++ [(key, value)];
     Request_Body := Request_Body req |}.

Definition StatusOK : Z := 200.

(** [%d] of an integer. *)
Definition decimal_of_Z (z : Z) : bytes :=
  list_ascii_of_string (DecimalString.NilZero.string_of_int (Z.to_int z)).

Section Clients.

(** [strings.TrimSpace], [json.Marshal] and [json.Unmarshal] at the types
    used, and [client.Do]. *)
Variable TrimSpace : bytes -> bytes.
Variable MarshalClaude : ClaudeRequest -> bytes * option error.
Variable MarshalOpenAI : OpenAIRequest -> bytes * option error.
Variable MarshalOllama : OllamaRequest -> bytes * option error.
Variable UnmarshalClaude : bytes -> ClaudeResponse * option error.
Variable UnmarshalOpenAI : bytes -> OpenAIResponse * option error.
Variable UnmarshalOllama : bytes -> OllamaResponse * option error.
Variable Do : Request -> Response * option error.

Definition queryClaudeAPI (apiKey prompt : bytes) : bytes * option error :=
  (* Prepare request body *)
  let reqBody :=
    {| ClaudeRequest_Model := lit "claude-sonnet-4-20250514";
       ClaudeRequest_MaxTokens := 1000;
       ClaudeRequest_Messages :=
         [ {| Message_Role := lit "user"; Message_Content := prompt |} ] |} in
  match MarshalClaude reqBody with
  | (_, Some err) => ([], Some (lit "failed to marshal request: " ++ err))
  | (jsonData, None) =>
  (* Create HTTP request *)
  match NewRequest (lit "POST") claudeAPIURL jsonData with
  | (_, Some err) => ([], Some (lit "failed to create request: " ++ err))
  | (req, None) =>
  (* Set headers *)
  let req := Header_Set req (lit "Content-Type") (lit "application/json") in
  let req := Header_Set req (lit "x-api-key") apiKey in
  let req := Header_Set req (lit "anthropic-version") (lit "2023-06-01") in
  (* Make the request *)
  match Do req with
  | (_, Some err) => ([], Some (lit "failed to make request: " ++ err))
  | (resp, None) =>
  (* Read response *)
  match Response_Body resp with
  | (_, Some err) => ([], Some (lit "failed to read response: " ++ err))
  | (body, None) =>
  (* Check for HTTP errors *)
  if negb (Response_StatusCode resp =? StatusOK)%Z then
    ([], Some (lit "API request failed with status "
               ++ decimal_of_Z (Response_StatusCode resp) ++ lit ": " ++ body))
  else
  (* Parse response *)
  match UnmarshalClaude body with
  | (_, Some err) => ([], Some (lit "failed to parse response: " ++ err))
  | (claudeResp, None) =>
  (* Check for API errors *)
  match ClaudeResponse_Error claudeResp with
  | Some e => ([], Some (lit "API error: " ++ APIError_Message e))
  | None =>
  (* Extract the command from response *)
  match ClaudeResponse_Content claudeResp with
  | [] => ([], Some (lit "no content in response"))
  | first :: _ =>
      let command := TrimSpace (ContentBlock_Text first) in
      if negb (nonempty command) then
        ([], Some (lit "empty response from API"))
      else (command, None)
  end end end end end end end.

Definition queryOpenAIAPI (apiKey prompt : bytes) : bytes * option error :=
  (* Prepare request body *)
  let reqBody :=
    {| OpenAIRequest_Model := lit "gpt-4o-mini";
       OpenAIRequest_MaxTokens := 1000;
       OpenAIRequest_Temperature :=
         Decimal.Decimal (Decimal.Pos (Decimal.D0 Decimal.Nil))
           (Decimal.D1 Decimal.Nil);
       OpenAIRequest_Messages :=
         [ {| OpenAIMessage_Role := lit "user";
              OpenAIMessage_Content := prompt |} ] |} in
  match MarshalOpenAI reqBody with
  | (_, Some err) => ([], Some (lit "failed to marshal request: " ++ err))
  | (jsonData, None) =>
  (* Create HTTP request *)
  match NewRequest (lit "POST") openaiAPIURL jsonData with
  | (_, Some err) => ([], Some (lit "failed to create request: " ++ err))
  | (req, None) =>
  (* Set headers *)
  let req := Header_Set req (lit "Content-Type") (lit "application/json") in
  let req := Header_Set req (lit "Authorization") (lit "Bearer " ++ apiKey) in
  (* Make the request *)
  match Do req with
  | (_, Some err) => ([], Some (lit "failed to make request: " ++ err))
  | (resp, None) =>
  (* Read response *)
  match Response_Body resp with
  | (_, Some err) => ([], Some (lit "failed to read response: " ++ err))
  | (body, None) =>
  (* Check for HTTP errors *)
  if negb (Response_StatusCode resp =? StatusOK)%Z then
    ([], Some (lit "API request failed with status "
               ++ decimal_of_Z (Response_StatusCode resp) ++ lit ": " ++ body))
  else
  (* Parse response *)
  match UnmarshalOpenAI body with
  | (_, Some err) => ([], Some (lit "failed to parse response: " ++ err))
  | (openaiResp, None) =>
  (* Check for API errors *)
  match OpenAIResponse_Error openaiResp with
  | Some e => ([], Some (lit "API error: " ++ APIError_Message e))
  | None =>
  (* Extract the command from response *)
  match OpenAIResponse_Choices openaiResp with
  | [] => ([], Some (lit "no choices in response"))
  | first :: _ =>
      let command :=
        TrimSpace (OpenAIMessage_Content (OpenAIChoice_Message first)) in
      if negb (nonempty command) then
        ([], Some (lit "empty response from API"))
      else (command, None)
  end end end end end end end.

Definition queryOllamaAPI (model prompt : bytes) : bytes * option error :=
  (* Prepare request body *)
  let reqBody :=
    {| OllamaRequest_Model := model;
       OllamaRequest_Prompt := prompt;
       OllamaRequest_Stream := false |} in
  match MarshalOllama reqBody with
  | (_, Some err) => ([], Some (lit "failed to marshal request: " ++ err))
  | (jsonData, None) =>
  (* Create HTTP request *)
  match NewRequest (lit "POST") ollamaAPIURL jsonData with
  | (_, Some err) => ([], Some (lit "failed to create request: " ++ err))
  | (req, None) =>
  (* Set headers *)
  let req := Header_Set req (lit "Content-Type") (lit "application/json") in
  (* Make the request *)
  match Do req with
  | (_, Some err) => ([], Some (lit "failed to make request: " ++ err))
  | (resp, None) =>
  (* Read response *)
  match Response_Body resp with
  | (_, Some err) => ([], Some (lit "failed to read response: " ++ err))
  | (body, None) =>
  (* Check for HTTP errors *)
  if negb (Response_StatusCode resp =? StatusOK)%Z then
    ([], Some (lit "API request failed with status "
               ++ decimal_of_Z (Response_StatusCode resp) ++ lit ": " ++ body))
  else
  (* Parse response *)
  match UnmarshalOllama body with
  | (_, Some err) => ([], Some (lit "failed to parse response: " ++ err))
  | (ollamaResp, None) =>
  (* Check for API errors *)
  match OllamaResponse_Error ollamaResp with
  | Some e => ([], Some (lit "API error: " ++ APIError_Message e))
  | None =>
  (* Extract the command from response *)
  if negb (nonempty (OllamaResponse_Response ollamaResp)) then
    ([], Some (lit "empty response from API"))
  else (TrimSpace (OllamaResponse_Response ollamaResp), None)
  end end end end end end.

End Clients.

(** What [strings.TrimSpace] does to a text made of ASCII bytes only:
    leading and trailing tab, newline, vertical tab, form feed, carriage
    return and space are removed.  It is not [strings.TrimSpace] on other
    texts, where Go also removes the Unicode spaces (U+0085, U+00A0 and the
    like, which are several bytes in UTF-8); the clients take [TrimSpace]
    as a parameter, and this function stands in for it in examples on ASCII
    texts only. *)
Definition isASCIISpace (c : ascii) : bool :=
  existsb (Ascii.eqb c) ["009"; "010"; "011"; "012"; "013"; " "].

Fixpoint TrimLeftASCII (s : bytes) : bytes :=
  match s with
  | c :: s' => if isASCIISpace c then TrimLeftASCII s' else s
  | [] => []
  end.

Definition TrimSpaceASCII (s : bytes) : bytes :=
  rev (TrimLeftASCII (rev (TrimLeftASCII s))).

(** ** Measures on texts *)

(** What a byte of the input can cost in the output of the inline
    transformation: itself, and its share of the codes that a span with
    this delimiter brings. *)
Definition cost (c : ascii) : nat :=
  if Ascii.eqb c "*" then 4
  else if Ascii.eqb c "_" then 4
  else if Ascii.eqb c "`" then 5
  else if Ascii.eqb c "]" then 10
  else 1.

Definition total_cost (s : bytes) : nat := list_sum (map cost s).

(** ** Tactics *)

Ltac inv H := inversion H; subst; clear H.

(** A byte does not occur in an explicit list of other bytes. *)
Ltac not_in :=
  let H := fresh "H" in
  simpl; intros H;
  repeat (destruct H as [H|H]; [discriminate H|]); exact H.

(** ** Lemmas on byte strings *)

Section Strings.

Lemma HasPrefix_app (p s : bytes) : HasPrefix (p ++ s) p = true.
Proof.
  induction p as [|c p IH]; simpl; [reflexivity|].
  now rewrite Ascii.eqb_refl.
Qed.

Lemma TrimPrefix_app (p s : bytes) : TrimPrefix (p ++ s) p = s.
Proof.
  unfold TrimPrefix. rewrite HasPrefix_app.
  induction p; simpl; auto.
Qed.

Lemma HasPrefix_inv (p s : bytes) :
  HasPrefix s p = true -> exists t, s = p ++ t.
Proof.
  revert s. induction p as [|c p IH]; intros s H.
  - now exists s.
  - destruct s as [|x s]; simpl in H; [discriminate|].
    apply andb_true_iff in H as [E H]. apply Ascii.eqb_eq in E. subst x.
    destruct (IH s H) as [t ->]. now exists t.
Qed.

Lemma HasSuffix_app (s q : bytes) : HasSuffix (s ++ q) q = true.
Proof. unfold HasSuffix. rewrite rev_app_distr. apply HasPrefix_app. Qed.

Lemma TrimSuffix_app (s q : bytes) : TrimSuffix (s ++ q) q = s.
Proof.
  unfold TrimSuffix. rewrite HasSuffix_app, length_app.
  replace (length s + length q - length q) with (length s) by lia.
  rewrite firstn_app, Nat.sub_diag, firstn_all. simpl. apply app_nil_r.
Qed.

Lemma Split_nonempty (s : bytes) (sep : ascii) : Split s sep <> [].
Proof.
  destruct s as [|c s]; simpl; [discriminate|].
  destruct (Ascii.eqb c sep); [discriminate|].
  destruct (Split s sep); discriminate.
Qed.

Lemma Split_pieces_free (s : bytes) (sep : ascii) :
  Forall (fun piece => ~ In sep piece) (Split s sep).
Proof.
  induction s as [|c s IH]; simpl.
  - constructor; [intros []|constructor].
  - destruct (Ascii.eqb c sep) eqn:E.
    + constructor; [intros []|exact IH].
    + apply Ascii.eqb_neq in E.
      destruct (Split s sep) as [|piece pieces]; [repeat constructor|].
      * intros [H|[]]. congruence.
      * inv IH. constructor; [|assumption].
        intros [H|H]; [congruence|contradiction].
Qed.

Lemma join_Split (s : bytes) : join_lines (Split s nl) = s.
Proof.
  induction s as [|c s IH]; [reflexivity|].
  pose proof (Split_nonempty s nl) as Hne.
  simpl. destruct (Ascii.eqb c nl) eqn:E.
  - apply Ascii.eqb_eq in E. subst c.
    destruct (Split s nl) as [|piece pieces]; [contradiction|].
    simpl. simpl in IH. now rewrite IH.
  - destruct (Split s nl) as [|piece pieces]; [contradiction|].
    destruct pieces as [|piece' pieces]; simpl in *; now rewrite <- IH.
Qed.

Lemma Split_free (l : bytes) : ~ In nl l -> Split l nl = [l].
Proof.
  induction l as [|c l IH]; intros H; [reflexivity|].
  simpl. destruct (Ascii.eqb c nl) eqn:E.
  - apply Ascii.eqb_eq in E. subst c. exfalso. apply H. now left.
  - rewrite IH; [reflexivity|]. intros H'. apply H. now right.
Qed.

Lemma Split_app_nl (l s : bytes) :
  ~ In nl l -> Split (l ++ nl :: s) nl = l :: Split s nl.
Proof.
  induction l as [|c l IH]; intros H; [reflexivity|].
  simpl. destruct (Ascii.eqb c nl) eqn:E.
  - apply Ascii.eqb_eq in E. subst c. exfalso. apply H. now left.
  - rewrite IH; [reflexivity|]. intros H'. apply H. now right.
Qed.

Lemma Split_join (ls : list bytes) :
  ls <> [] -> Forall (fun l => ~ In nl l) ls -> Split (join_lines ls) nl = ls.
Proof.
  induction ls as [|l ls IH]; intros Hne Hfree; [contradiction|].
  inv Hfree. destruct ls as [|l' ls].
  - now apply Split_free.
  - change (join_lines (l :: l' :: ls))
      with (l ++ nl :: join_lines (l' :: ls)).
    rewrite Split_app_nl by assumption.
    rewrite IH; [reflexivity|discriminate|assumption].
Qed.

Lemma fold_lines (f : bytes -> bytes) (ls : list bytes) (acc : bytes) :
  fold_left (fun result line => result ++ (f line ++ [nl])) ls acc
  = acc ++ concat (map (fun line => f line ++ [nl]) ls).
Proof.
  revert acc. induction ls as [|l ls IH]; intros acc; simpl.
  - now rewrite app_nil_r.
  - rewrite IH. now rewrite <- app_assoc.
Qed.

Lemma concat_lines (ls : list bytes) :
  ls <> [] -> concat (map (fun l => l ++ [nl]) ls) = join_lines ls ++ [nl].
Proof.
  induction ls as [|l ls IH]; intros Hne; [contradiction|].
  destruct ls as [|l' ls].
  - simpl. now rewrite app_nil_r.
  - change (concat (map (fun l => l ++ [nl]) (l :: l' :: ls)))
      with ((l ++ [nl]) ++ concat (map (fun l => l ++ [nl]) (l' :: ls))).
    rewrite IH by discriminate.
    change (join_lines (l :: l' :: ls)) with (l ++ nl :: join_lines (l' :: ls)).
    now rewrite <- !app_assoc.
Qed.

End Strings.

(** ** Lemmas on the matcher *)

Section Matcher.

Lemma lazy_star_inv k rest s : forall i marks r,
  lazy_star k rest s i marks = Some r ->
  exists cap s',
    s = cap ++ s' /\ forallb (cmatch k) cap = true
    /\ rest s' (i + length cap) marks = Some r.
Proof.
  induction s as [|x s IH]; intros i marks r H; simpl in H.
  - destruct (rest [] i marks) eqn:E; [|discriminate].
    exists [], []. simpl. rewrite Nat.add_0_r. now inv H.
  - destruct (rest (x :: s) i marks) eqn:E.
    + exists [], (x :: s). simpl. rewrite Nat.add_0_r. now inv H.
    + destruct (cmatch k x) eqn:Ex; [|discriminate].
      destruct (IH _ _ _ H) as (cap & s' & -> & Hcap & Hrest).
      exists (x :: cap), s'. simpl. rewrite Ex, Hcap.
      now rewrite <- Nat.add_succ_comm.
Qed.

(** A lazy star in front of a group end and a literal runs over text that
    is free of the literal. *)
Lemma lazy_star_to_literal bot k c0 p cap t : forall i marks r,
  forallb (cmatch k) cap = true ->
  ~ In c0 cap ->
  exec bot (GClose :: Lit c0 :: p) t (i + length cap) marks = Some r ->
  lazy_star k (exec bot (GClose :: Lit c0 :: p)) (cap ++ t) i marks = Some r.
Proof.
  induction cap as [|x cap IH]; intros i marks r Hk Hfree Hrest.
  - simpl in *. rewrite Nat.add_0_r in Hrest.
    destruct t; simpl in *; now rewrite Hrest.
  - simpl in Hk. apply andb_true_iff in Hk as [Hx Hk].
    assert (Hne : Ascii.eqb x c0 = false).
    { apply Ascii.eqb_neq. intros ->. apply Hfree. now left. }
    change (lazy_star k (exec bot (GClose :: Lit c0 :: p)) ((x :: cap) ++ t) i marks)
      with (match exec bot (GClose :: Lit c0 :: p) (x :: cap ++ t) i marks with
            | Some r => Some r
            | None => if cmatch k x
                      then lazy_star k (exec bot (GClose :: Lit c0 :: p))
                             (cap ++ t) (S i) marks
                      else None
            end).
    simpl exec at 1. rewrite Hne, Hx.
    apply IH; [assumption| |].
    + intros H. apply Hfree. now right.
    + simpl length in Hrest. now rewrite <- Nat.add_succ_comm in Hrest.
Qed.

Lemma greedy_star_inv k rest s : forall i marks r,
  greedy_star k rest s i marks = Some r ->
  exists cap s',
    s = cap ++ s' /\ forallb (cmatch k) cap = true
    /\ rest s' (i + length cap) marks = Some r.
Proof.
  induction s as [|x s IH]; intros i marks r H; simpl in H.
  - exists [], []. simpl. now rewrite Nat.add_0_r.
  - destruct (cmatch k x) eqn:Ex.
    + destruct (greedy_star k rest s (S i) marks) eqn:E.
      * inv H. destruct (IH _ _ _ E) as (cap & s' & -> & Hcap & Hrest).
        exists (x :: cap), s'. simpl. rewrite Ex, Hcap.
        now rewrite <- Nat.add_succ_comm.
      * exists [], (x :: s). simpl. now rewrite Nat.add_0_r.
    + exists [], (x :: s). simpl. now rewrite Nat.add_0_r.
Qed.

(** A greedy star takes the whole run of its class when the rest of the
    pattern matches after the run. *)
Lemma greedy_star_run k rest cap t : forall i marks r,
  forallb (cmatch k) cap = true ->
  match t with [] => True | y :: _ => cmatch k y = false end ->
  rest t (i + length cap) marks = Some r ->
  greedy_star k rest (cap ++ t) i marks = Some r.
Proof.
  induction cap as [|x cap IH]; intros i marks r Hk Ht Hrest.
  - simpl in *. rewrite Nat.add_0_r in Hrest.
    destruct t as [|y t]; simpl; [assumption|]. now rewrite Ht.
  - simpl in Hk. apply andb_true_iff in Hk as [Hx Hk].
    simpl. rewrite Hx. rewrite (IH (S i) marks r); auto.
    simpl length in Hrest. now rewrite <- Nat.add_succ_comm in Hrest.
Qed.

Lemma exec_lits bot o p : forall s i marks r,
  exec bot (map Lit o ++ p) s i marks = Some r ->
  exists s', s = o ++ s' /\ exec bot p s' (i + length o) marks = Some r.
Proof.
  induction o as [|c o IH]; intros s i marks r H.
  - exists s. simpl. now rewrite Nat.add_0_r.
  - simpl in H. destruct s as [|x s]; [discriminate|].
    destruct (Ascii.eqb x c) eqn:E; [|discriminate].
    apply Ascii.eqb_eq in E. subst x.
    destruct (IH _ _ _ _ H) as (s' & -> & H').
    exists s'. simpl. now rewrite <- Nat.add_succ_comm.
Qed.

Lemma exec_lits_run bot o p s : forall i marks,
  exec bot (map Lit o ++ p) (o ++ s) i marks
  = exec bot p s (i + length o) marks.
Proof.
  induction o as [|c o IH]; intros i marks; simpl.
  - now rewrite Nat.add_0_r.
  - rewrite Ascii.eqb_refl, IH. now rewrite <- Nat.add_succ_comm.
Qed.

Lemma exec_lits_end bot c s i marks r :
  exec bot (map Lit c) s i marks = Some r ->
  exists s', s = c ++ s' /\ r = (i + length c, marks).
Proof.
  intros H. rewrite <- (app_nil_r (map Lit c)) in H.
  apply exec_lits in H as (s' & -> & H). simpl in H. inv H. now exists s'.
Qed.

Lemma exec_lits_end_run bot c s i marks :
  exec bot (map Lit c) (c ++ s) i marks = Some (i + length c, marks).
Proof.
  rewrite <- (app_nil_r (map Lit c)). now rewrite exec_lits_run.
Qed.

(** A match of a span pattern, taken apart. *)
Lemma exec_span bot o k c s n marks :
  exec bot (spanRe o k c) s 0 [] = Some (n, marks) ->
  exists cap rest,
    s = o ++ cap ++ c ++ rest
    /\ forallb (cmatch k) cap = true
    /\ n = length o + length cap + length c
    /\ marks = [length o + length cap; length o].
Proof.
  unfold spanRe. intros H.
  apply exec_lits in H as (s1 & -> & H). simpl in H.
  apply lazy_star_inv in H as (cap & s2 & -> & Hcap & H).
  change (exec bot (GClose :: map Lit c) s2 (length o + length cap) [length o])
    with (exec bot (map Lit c) s2 (length o + length cap)
            [length o + length cap; length o]) in H.
  apply exec_lits_end in H as (rest & -> & H). inv H.
  exists cap, rest. repeat split; auto.
Qed.

(** A span whose text is free of the first closing byte is matched. *)
Lemma exec_span_run bot o k c0 c cap rest :
  forallb (cmatch k) cap = true ->
  ~ In c0 cap ->
  exec bot (spanRe o k (c0 :: c)) (o ++ cap ++ (c0 :: c) ++ rest) 0 []
  = Some (length o + length cap + length (c0 :: c),
          [length o + length cap; length o]).
Proof.
  intros Hcap Hfree. unfold spanRe.
  rewrite exec_lits_run. simpl "+".
  change (exec bot ([GOpen; LazyStar k; GClose] ++ map Lit (c0 :: c))
            (cap ++ (c0 :: c) ++ rest) (length o) [])
    with (lazy_star k (exec bot (GClose :: Lit c0 :: map Lit c))
            (cap ++ (c0 :: c) ++ rest) (length o) [length o]).
  apply lazy_star_to_literal; auto.
  change (exec bot (GClose :: Lit c0 :: map Lit c) ((c0 :: c) ++ rest)
            (length o + length cap) [length o])
    with (exec bot (map Lit (c0 :: c)) ((c0 :: c) ++ rest)
            (length o + length cap) [length o + length cap; length o]).
  now rewrite exec_lits_end_run.
Qed.

(** A match of the link pattern, taken apart. *)
Lemma exec_link bot s n marks :
  exec bot linkRe s 0 [] = Some (n, marks) ->
  exists cap target rest,
    s = lit "[" ++ cap ++ lit "](" ++ target ++ lit ")" ++ rest
    /\ forallb (cmatch (CNot ["]"; nl])) cap = true
    /\ forallb (cmatch (CNot [")"; nl])) target = true
    /\ n = 1 + length cap + 2 + length target + 1
    /\ marks = [1 + length cap; 1].
Proof.
  intros H.
  change linkRe with (map Lit (lit "[")
    ++ [GOpen; LazyStar (CNot ["]"; nl]); GClose; Lit "]";
        Lit "("; LazyStar (CNot [")"; nl]); Lit ")"]) in H.
  apply exec_lits in H as (s1 & -> & H). simpl in H.
  apply lazy_star_inv in H as (cap & s2 & -> & Hcap & H).
  simpl in H.
  destruct s2 as [|x s2]; [discriminate|].
  destruct (Ascii.eqb x "]") eqn:E1; [|discriminate].
  apply Ascii.eqb_eq in E1. subst x.
  destruct s2 as [|x s3]; [discriminate|].
  destruct (Ascii.eqb x "(") eqn:E2; [|discriminate].
  apply Ascii.eqb_eq in E2. subst x.
  apply lazy_star_inv in H as (target & s4 & -> & Htarget & H).
  destruct s4 as [|x rest]; [discriminate|].
  destruct (Ascii.eqb x ")") eqn:E3; [|discriminate].
  apply Ascii.eqb_eq in E3. subst x. inv H.
  exists cap, target, rest. repeat split; auto.
  simpl. lia.
Qed.

Lemma substr_middle (o cap t : bytes) :
  substr (o ++ cap ++ t) (length o) (length o + length cap) = cap.
Proof.
  unfold substr. rewrite skipn_app, skipn_all, Nat.sub_diag. simpl.
  replace (length o + length cap - length o) with (length cap) by lia.
  rewrite firstn_app, firstn_all, Nat.sub_diag. simpl. apply app_nil_r.
Qed.

Lemma expand_Bold w g :
  expand (Bold ++ lit "$1" ++ Reset) [w; g] = Bold ++ g ++ Reset.
Proof. reflexivity. Qed.

Lemma expand_Italic w g :
  expand (Italic ++ lit "$1" ++ Reset) [w; g] = Italic ++ g ++ Reset.
Proof. reflexivity. Qed.

Lemma expand_Cyan w g :
  expand (Cyan ++ lit "$1" ++ Reset) [w; g] = Cyan ++ g ++ Reset.
Proof. reflexivity. Qed.

Lemma expand_Link w g :
  expand (Blue ++ Underline ++ lit "$1" ++ Reset) [w; g]
  = (Blue ++ Underline) ++ g ++ Reset.
Proof. reflexivity. Qed.

(** The end of a match is not before its start. *)
Lemma exec_offset_le bot p : forall s i marks n marks',
  exec bot p s i marks = Some (n, marks') -> i <= n.
Proof.
  induction p as [|nd p IH]; intros s i marks n marks' H.
  - inv H. lia.
  - destruct nd; simpl in H.
    + destruct (bot && (i =? 0)%nat); [|discriminate]. now apply IH in H.
    + destruct s as [|x s]; [discriminate|].
      destruct (Ascii.eqb x c); [|discriminate]. apply IH in H. lia.
    + apply lazy_star_inv in H as (cap & s' & _ & _ & H). apply IH in H. lia.
    + apply greedy_star_inv in H as (cap & s' & _ & _ & H). apply IH in H. lia.
    + destruct s as [|x s]; [discriminate|].
      destruct (cmatch k x); [|discriminate].
      apply greedy_star_inv in H as (cap & s' & _ & _ & H). apply IH in H. lia.
    + now apply IH in H.
    + now apply IH in H.
Qed.

Lemma exec_Lit_nonempty bot c p s n marks :
  exec bot (Lit c :: p) s 0 [] = Some (n, marks) -> 0 < n.
Proof.
  intros H. simpl in H. destruct s as [|x s]; [discriminate|].
  destruct (Ascii.eqb x c); [|discriminate].
  apply exec_offset_le in H. lia.
Qed.

(** The patterns of the inline steps begin with a literal: their matches
    are never empty. *)
Lemma inline_matches_nonempty step bot s n marks :
  In step inlineSteps ->
  exec bot (fst step) s 0 [] = Some (n, marks) -> 0 < n.
Proof.
  intros Hstep H. simpl in Hstep.
  destruct Hstep as [<-|[<-|[<-|[<-|[<-|[<-|[]]]]]]];
    exact (exec_Lit_nonempty _ _ _ _ _ _ H).
Qed.

End Matcher.

(** ** Lemmas on a substitution pass *)

Section Pass.

Variables (p : regex) (repl : bytes).

Lemma replace_scan_0 bot s :
  replace_scan p repl bot 0 s
  = match exec bot p s 0 [] with
    | Some (S k, marks) =>
        expand repl (submatches s (S k) marks)
        ++ match s with
           | _ :: s' => replace_scan p repl false k s'
           | [] => []
           end
    | _ =>
        match s with
        | x :: s' => x :: replace_scan p repl false 0 s'
        | [] => []
        end
    end.
Proof. destruct s; reflexivity. Qed.

Lemma replace_scan_skip m t :
  replace_scan p repl false (length m) (m ++ t) = replace_scan p repl false 0 t.
Proof. induction m as [|x m IH]; [reflexivity|exact IH]. Qed.

(** The pass at a position where the pattern matches a non-empty text. *)
Lemma replace_scan_match bot m t marks :
  m <> [] ->
  exec bot p (m ++ t) 0 [] = Some (length m, marks) ->
  replace_scan p repl bot 0 (m ++ t)
  = expand repl (submatches (m ++ t) (length m) marks)
    ++ replace_scan p repl false 0 t.
Proof.
  intros Hne Hexec. rewrite replace_scan_0, Hexec.
  destruct m as [|x m]; [contradiction|].
  simpl length. cbv iota beta. f_equal.
  apply replace_scan_skip.
Qed.

(** The pass at a position where the pattern does not match. *)
Lemma replace_scan_copy bot x s :
  exec bot p (x :: s) 0 [] = None ->
  replace_scan p repl bot 0 (x :: s) = x :: replace_scan p repl false 0 s.
Proof. intros Hexec. now rewrite replace_scan_0, Hexec. Qed.

Variables (shape : bytes -> bytes -> Prop) (style : bytes).

Hypothesis exec_shape : forall bot s n marks,
  exec bot p s 0 [] = Some (n, marks) ->
  exists m cap rest,
    s = m ++ rest /\ n = length m /\ shape m cap
    /\ expand repl (submatches s n marks) = style ++ cap ++ Reset.

Lemma replace_scan_sound_len : forall len s bot,
  length s <= len -> Rewrites shape style s (replace_scan p repl bot 0 s).
Proof.
  induction len as [|len IH]; intros s bot Hlen.
  - destruct s; [|simpl in Hlen; lia].
    rewrite replace_scan_0.
    destruct (exec bot p [] 0 []) as [[[|k] marks]|] eqn:E; try constructor.
    apply exec_shape in E as (m & cap & rest & Hs & Hn & _).
    destruct m; [discriminate|discriminate].
  - rewrite replace_scan_0.
    destruct (exec bot p s 0 []) as [[[|k] marks]|] eqn:E.
    + destruct s as [|x s]; constructor. apply IH. simpl in Hlen. lia.
    + apply exec_shape in E as (m & cap & rest & Hs & Hn & Hshape & Hexp).
      rewrite Hexp. subst s. destruct m as [|x m]; [discriminate|].
      simpl in Hn. inv Hn.
      change (match (x :: m) ++ rest with
              | _ :: s' => replace_scan p repl false (length m) s'
              | [] => []
              end) with (replace_scan p repl false (length m) (m ++ rest)).
      rewrite replace_scan_skip, <- !app_assoc.
      apply (rw_match shape style (x :: m) cap); [assumption|].
      apply IH. simpl in Hlen. rewrite length_app in Hlen. lia.
    + destruct s as [|x s]; constructor. apply IH. simpl in Hlen. lia.
Qed.

Lemma replace_scan_sound s bot :
  Rewrites shape style s (replace_scan p repl bot 0 s).
Proof. now apply (replace_scan_sound_len (length s)). Qed.

End Pass.

(** Each step of [renderInlineFormatting] rewrites spans of its shape. *)

Lemma span_step_sound o k c style s repl :
  (forall w g, expand repl [w; g] = style ++ g ++ Reset) ->
  Rewrites (span_shape o k c) style s (ReplaceAllString (spanRe o k c) s repl).
Proof.
  intros Hexp. apply replace_scan_sound.
  intros bot t n marks H.
  apply exec_span in H as (cap & rest & -> & Hcap & -> & ->).
  exists (o ++ cap ++ c), cap, rest. repeat split; auto.
  - now rewrite <- !app_assoc.
  - rewrite !length_app. lia.
  - unfold submatches. simpl. rewrite Hexp. now rewrite substr_middle.
Qed.

Lemma link_step_sound s :
  Rewrites link_shape (Blue ++ Underline) s
    (ReplaceAllString linkRe s (Blue ++ Underline ++ lit "$1" ++ Reset)).
Proof.
  apply replace_scan_sound.
  intros bot t n marks H.
  apply exec_link in H as (cap & target & rest & -> & Hcap & Htarget & -> & ->).
  exists (lit "[" ++ cap ++ lit "](" ++ target ++ lit ")"), cap, rest.
  repeat split.
  - now rewrite <- !app_assoc.
  - rewrite !length_app. simpl. lia.
  - now exists target.
  - unfold submatches. cbn [rev app pair_up map fst snd].
    rewrite expand_Link. f_equal. f_equal.
    apply (substr_middle (lit "[") cap).
Qed.

(** ** What follows from a pass being a rewriting *)

Section Rewriting.

Variables (shape : bytes -> bytes -> Prop) (style : bytes).

Lemma occurrences_app c s t :
  occurrences c (s ++ t) = occurrences c s + occurrences c t.
Proof. apply count_occ_app. Qed.

Lemma occurrences_cons_le c x s : occurrences c s <= occurrences c (x :: s).
Proof.
  unfold occurrences. simpl. destruct (ascii_dec x c); lia.
Qed.

Lemma occurrences_zero c s : ~ In c s <-> occurrences c s = 0.
Proof. apply count_occ_not_In. Qed.


Lemma Rewrites_length s out :
  (forall m cap, shape m cap ->
     length m <= length style + length cap + length Reset) ->
  Rewrites shape style s out -> length s <= length out.
Proof.
  intros Hshape H. induction H; [simpl; lia|simpl; lia|].
  apply Hshape in H. rewrite !length_app in *. lia.
Qed.

Lemma Rewrites_In s out :
  (forall m cap, shape m cap -> incl cap m) ->
  Rewrites shape style s out ->
  forall x, In x out -> In x s \/ In x style \/ In x Reset.
Proof.
  intros Hshape H. induction H; intros y Hy.
  - contradiction.
  - destruct Hy as [->|Hy]; [left; now left|].
    destruct (IHRewrites y Hy) as [?|?]; [left; now right|now right].
  - rewrite !in_app_iff in Hy. rewrite in_app_iff.
    destruct Hy as [Hy|[Hy|[Hy|Hy]]]; auto.
    + left. left. now apply (Hshape m cap).
    + destruct (IHRewrites y Hy) as [?|?]; auto.
Qed.

(** A pass whose matches each need [n] occurrences of [d] leaves a text
    with fewer occurrences alone. *)
Lemma Rewrites_id d n s out :
  (forall m cap, shape m cap -> n <= occurrences d m) ->
  occurrences d s < n ->
  Rewrites shape style s out -> out = s.
Proof.
  intros Hshape Hlt H. induction H.
  - reflexivity.
  - f_equal. apply IHRewrites.
    pose proof (occurrences_cons_le d x s). lia.
  - apply Hshape in H. rewrite occurrences_app in Hlt. lia.
Qed.

Lemma Rewrites_occurrences c s out :
  ~ In c style -> ~ In c Reset ->
  (forall m cap, shape m cap -> occurrences c cap <= occurrences c m) ->
  Rewrites shape style s out -> occurrences c out <= occurrences c s.
Proof.
  intros Hstyle Hreset Hshape H. induction H.
  - lia.
  - unfold occurrences in *. simpl. destruct (ascii_dec x c); lia.
  - apply Hshape in H. rewrite !occurrences_app.
    apply occurrences_zero in Hstyle, Hreset. lia.
Qed.







End Rewriting.

(** ** The steps of the inline transformation *)

Section Steps.

Lemma span_incl o k c m cap : span_shape o k c m cap -> incl cap m.
Proof.
  intros [-> _] x Hx. rewrite !in_app_iff. right. now left.
Qed.

Lemma span_length o k c m cap :
  span_shape o k c m cap -> length m = length o + length cap + length c.
Proof. intros [-> _]. rewrite !length_app. lia. Qed.

Lemma span_occurrences d o k c m cap :
  span_shape o k c m cap ->
  occurrences d m = occurrences d o + occurrences d cap + occurrences d c.
Proof. intros [-> _]. rewrite !occurrences_app. lia. Qed.

Lemma link_incl m cap : link_shape m cap -> incl cap m.
Proof.
  intros (target & -> & _) x Hx. rewrite !in_app_iff. right. now left.
Qed.

Lemma link_occurrences d m cap :
  link_shape m cap ->
  exists target,
    occurrences d m
    = occurrences d (lit "[") + occurrences d cap + occurrences d (lit "](")
      + occurrences d target + occurrences d (lit ")").
Proof.
  intros (target & -> & _). exists target. rewrite !occurrences_app. lia.
Qed.

(** The bytes that occur in the codes the renderer inserts. *)
Lemma code_bytes x :
  In x Reset \/ In x Bold \/ In x Italic \/ In x Cyan \/ In x (Blue ++ Underline)
  \/ In x Yellow \/ In x Green \/ In x Magenta \/ In x Blue ->
  In x (ESC :: lit "[0123456m").
Proof. simpl. intuition. Qed.

Section SpanStep.

Variables (o : bytes) (k : cclass) (c : bytes) (style repl : bytes).
Hypothesis Hexp : forall w g, expand repl [w; g] = style ++ g ++ Reset.

Lemma span_step_length s :
  length o + length c <= length style + length Reset ->
  length s <= length (spanStep o k c repl s).
Proof.
  intros Hlen.
  apply (Rewrites_length (span_shape o k c) style); [|now apply span_step_sound].
  intros m cap H. apply span_length in H. lia.
Qed.

Lemma span_step_In s x :
  In x (spanStep o k c repl s) -> In x s \/ In x style \/ In x Reset.
Proof.
  apply (Rewrites_In (span_shape o k c) style); [|now apply span_step_sound].
  intros m cap. apply span_incl.
Qed.


Lemma span_step_occurrences s d :
  ~ In d style -> ~ In d Reset -> occurrences d (spanStep o k c repl s) <= occurrences d s.
Proof.
  intros Hs Hr.
  apply (Rewrites_occurrences (span_shape o k c) style); auto;
    [|now apply span_step_sound].
  intros m cap H. rewrite (span_occurrences d _ _ _ _ _ H). lia.
Qed.

Lemma span_step_id s d :
  occurrences d s < occurrences d o + occurrences d c -> spanStep o k c repl s = s.
Proof.
  intros Hlt.
  apply (Rewrites_id (span_shape o k c) style d
           (occurrences d o + occurrences d c)); auto;
    [|now apply span_step_sound].
  intros m cap H. rewrite (span_occurrences d _ _ _ _ _ H). lia.
Qed.

End SpanStep.

Lemma link_step_In s x :
  In x (linkStep s) -> In x s \/ In x (Blue ++ Underline) \/ In x Reset.
Proof.
  apply (Rewrites_In link_shape (Blue ++ Underline)); [|apply link_step_sound].
  intros m cap. apply link_incl.
Qed.


Lemma link_step_occurrences s d :
  ~ In d (Blue ++ Underline) -> ~ In d Reset ->
  occurrences d (linkStep s) <= occurrences d s.
Proof.
  intros Hs Hr.
  apply (Rewrites_occurrences link_shape (Blue ++ Underline)); auto;
    [|apply link_step_sound].
  intros m cap H. destruct (link_occurrences d _ _ H) as [target ->]. lia.
Qed.

Lemma link_step_id s d :
  In d (lit "[]()") -> ~ In d s -> linkStep s = s.
Proof.
  intros Hd Hfree.
  apply (Rewrites_id link_shape (Blue ++ Underline) d 1);
    [| |apply link_step_sound].
  - intros m cap H. destruct (link_occurrences d _ _ H) as [target ->].
    simpl in Hd. destruct Hd as [<-|[<-|[<-|[<-|[]]]]];
      unfold occurrences; simpl; lia.
  - apply occurrences_zero in Hfree. lia.
Qed.

End Steps.

(** ** The inline transformation as a whole *)

Section Inline.

Lemma inline_steps text :
  renderInlineFormatting text
  = linkStep (codeStep (italicStep2 (italicStep (boldStep2 (boldStep text))))).
Proof. reflexivity. Qed.

Lemma inline_fold text :
  renderInlineFormatting text = fold_left applyStep inlineSteps text.
Proof. reflexivity. Qed.

Lemma inline_In text x :
  In x (renderInlineFormatting text) ->
  In x text \/ In x (ESC :: lit "[0123456m").
Proof.
  rewrite inline_steps. intros H.
  apply link_step_In in H as [H|H]; [|right; apply code_bytes; tauto].
  apply (span_step_In _ _ _ Cyan _ expand_Cyan) in H as [H|H];
    [|right; apply code_bytes; tauto].
  apply (span_step_In _ _ _ Italic _ expand_Italic) in H as [H|H];
    [|right; apply code_bytes; tauto].
  apply (span_step_In _ _ _ Italic _ expand_Italic) in H as [H|H];
    [|right; apply code_bytes; tauto].
  apply (span_step_In _ _ _ Bold _ expand_Bold) in H as [H|H];
    [|right; apply code_bytes; tauto].
  apply (span_step_In _ _ _ Bold _ expand_Bold) in H as [H|H];
    [now left|right; apply code_bytes; tauto].
Qed.


(** The five span passes never shorten the text. *)
Lemma spans_length text :
  length text
  <= length (codeStep (italicStep2 (italicStep (boldStep2 (boldStep text))))).
Proof.
  etransitivity; [|apply (span_step_length _ _ _ Cyan _ expand_Cyan); simpl; lia].
  etransitivity; [|apply (span_step_length _ _ _ Italic _ expand_Italic); simpl; lia].
  etransitivity; [|apply (span_step_length _ _ _ Italic _ expand_Italic); simpl; lia].
  etransitivity; [|apply (span_step_length _ _ _ Bold _ expand_Bold); simpl; lia].
  apply (span_step_length _ _ _ Bold _ expand_Bold); simpl; lia.
Qed.

(** They add none of the bytes outside the codes. *)
Lemma spans_In text x :
  In x (codeStep (italicStep2 (italicStep (boldStep2 (boldStep text))))) ->
  In x text \/ In x (ESC :: lit "[0123456m").
Proof.
  intros H.
  apply (span_step_In _ _ _ Cyan _ expand_Cyan) in H as [H|H];
    [|right; apply code_bytes; tauto].
  apply (span_step_In _ _ _ Italic _ expand_Italic) in H as [H|H];
    [|right; apply code_bytes; tauto].
  apply (span_step_In _ _ _ Italic _ expand_Italic) in H as [H|H];
    [|right; apply code_bytes; tauto].
  apply (span_step_In _ _ _ Bold _ expand_Bold) in H as [H|H];
    [|right; apply code_bytes; tauto].
  apply (span_step_In _ _ _ Bold _ expand_Bold) in H as [H|H];
    [now left|right; apply code_bytes; tauto].
Qed.

Lemma inline_length text :
  ~ In "]" text -> length text <= length (renderInlineFormatting text).
Proof.
  intros Hfree. rewrite inline_steps.
  rewrite (link_step_id _ "]").
  - apply spans_length.
  - simpl. tauto.
  - intros H. apply spans_In in H as [H|H]; [contradiction|].
    simpl in H. repeat (destruct H as [H|H]; [discriminate|]). contradiction.
Qed.

(** Texts in which no delimiter can pair up are left as they are. *)
Lemma inline_id text d :
  occurrences "*" text <= 1 ->
  occurrences "_" text <= 1 ->
  occurrences "`" text <= 1 ->
  In d (lit "[]()") -> ~ In d text ->
  renderInlineFormatting text = text.
Proof.
  intros Hstar Hunder Htick Hd Hfree. rewrite inline_steps.
  assert (E1 : boldStep text = text).
  { apply (span_step_id _ _ _ Bold _ expand_Bold _ "*").
    unfold occurrences in *. simpl. lia. }
  rewrite E1.
  assert (E2 : boldStep2 text = text).
  { apply (span_step_id _ _ _ Bold _ expand_Bold _ "_").
    unfold occurrences in *. simpl. lia. }
  rewrite E2.
  assert (E3 : italicStep text = text).
  { apply (span_step_id _ _ _ Italic _ expand_Italic _ "*").
    unfold occurrences in *. simpl. lia. }
  rewrite E3.
  assert (E4 : italicStep2 text = text).
  { apply (span_step_id _ _ _ Italic _ expand_Italic _ "_").
    unfold occurrences in *. simpl. lia. }
  rewrite E4.
  assert (E5 : codeStep text = text).
  { apply (span_step_id _ _ _ Cyan _ expand_Cyan _ "`").
    unfold occurrences in *. simpl. lia. }
  rewrite E5.
  now apply (link_step_id _ d).
Qed.

End Inline.

(** ** Numbered lines *)

Section Numbered.

Lemma search_here p bot s n marks :
  exec bot p s 0 [] = Some (n, marks) ->
  search p bot s = Some (submatches s n marks).
Proof. intros H. destruct s; cbn [search]; now rewrite H. Qed.

(** A pattern anchored at the beginning matches nowhere else. *)
Lemma search_Bol p s : search (Bol :: p) false s = None.
Proof. induction s as [|x s IH]; [reflexivity|exact IH]. Qed.

Lemma search_anchored p s :
  search (Bol :: p) true s
  = match exec true (Bol :: p) s 0 [] with
    | Some (n, marks) => Some (submatches s n marks)
    | None => None
    end.
Proof.
  destruct s as [|x s]; cbn [search];
    destruct (exec true (Bol :: p) _ 0 []) as [[n marks]|]; auto.
  apply search_Bol.
Qed.

Lemma split_at_nl (s : bytes) :
  exists body tail,
    s = body ++ tail /\ ~ In nl body /\ (tail = [] \/ exists t, tail = nl :: t).
Proof.
  induction s as [|x s (body & tail & -> & Hbody & Htail)].
  - exists [], []. repeat split; auto.
  - destruct (ascii_dec x nl) as [->|Hne].
    + exists [], (nl :: body ++ tail). repeat split; auto. right. now eexists.
    + exists (x :: body), tail. repeat split; auto.
      intros [H|H]; [congruence|contradiction].
Qed.

Lemma forallb_dot body : ~ In nl body -> forallb (cmatch CDot) body = true.
Proof.
  induction body as [|x body IH]; intros H; [reflexivity|].
  simpl. rewrite IH by (intros H'; apply H; now right).
  destruct (Ascii.eqb x nl) eqn:E; [|reflexivity].
  apply Ascii.eqb_eq in E. subst x. exfalso. apply H. now left.
Qed.

Lemma numbered_inv line :
  MatchString numberedRe line = true -> numbered_prefix line.
Proof.
  unfold MatchString, numberedRe. rewrite search_anchored.
  destruct (exec true _ line 0 []) as [[n marks]|] eqn:E; [|discriminate].
  intros _. simpl in E.
  destruct line as [|d line]; [discriminate|].
  destruct (is_digit d) eqn:Hd; [|discriminate].
  apply greedy_star_inv in E as (ds & s' & -> & Hds & E).
  destruct s' as [|x s']; [discriminate|].
  destruct (Ascii.eqb x ".") eqn:E1; [|discriminate].
  apply Ascii.eqb_eq in E1. subst x.
  destruct s' as [|x rest]; [discriminate|].
  destruct (Ascii.eqb x " ") eqn:E2; [|discriminate].
  apply Ascii.eqb_eq in E2. subst x.
  exists (d :: ds), rest. repeat split.
  - discriminate.
  - simpl. now rewrite Hd.
Qed.

Lemma numbered_match ds rest :
  ds <> [] -> forallb is_digit ds = true ->
  MatchString numberedRe (ds ++ lit ". " ++ rest) = true.
Proof.
  intros Hne Hds. destruct ds as [|d ds]; [contradiction|].
  simpl in Hds. apply andb_true_iff in Hds as [Hd Hds].
  unfold MatchString, numberedRe. rewrite search_anchored.
  cbn [exec app andb Nat.eqb cmatch]. rewrite Hd.
  rewrite (greedy_star_run CDigit _ ds (lit ". " ++ rest) 1 []
             (1 + length ds + 2, []));
    [reflexivity|assumption|reflexivity|].
  simpl. f_equal. f_equal. lia.
Qed.

Lemma exec_numbered_parts ds body tail :
  ds <> [] -> forallb is_digit ds = true ->
  ~ In nl body -> (tail = [] \/ exists t, tail = nl :: t) ->
  exec true numberedPartsRe (ds ++ lit ". " ++ body ++ tail) 0 []
  = Some (length ds + 2 + length body,
          [length ds + 2 + length body; length ds + 2; length ds + 2; 0]).
Proof.
  intros Hne Hds Hbody Htail. destruct ds as [|d ds]; [contradiction|].
  simpl in Hds. apply andb_true_iff in Hds as [Hd Hds].
  unfold numberedPartsRe.
  cbn [exec app andb Nat.eqb cmatch]. rewrite Hd.
  set (a := length (d :: ds) + 2).
  set (n := a + length body).
  apply greedy_star_run; [assumption|reflexivity|].
  cbn [lit list_ascii_of_string app exec]. cbn [Ascii.eqb Bool.eqb].
  cbv beta iota.
  replace (S (S (1 + length ds))) with a by (subst a; simpl; lia).
  apply greedy_star_run.
  - now apply forallb_dot.
  - destruct Htail as [->|[t ->]]; [exact I|reflexivity].
  - reflexivity.
Qed.

Lemma firstn_length_app (l l' : bytes) n :
  n = length l -> firstn n (l ++ l') = l.
Proof.
  intros ->. rewrite firstn_app, firstn_all, Nat.sub_diag. simpl.
  apply app_nil_r.
Qed.

Lemma skipn_length_app (l l' : bytes) n :
  n = length l -> skipn n (l ++ l') = l'.
Proof.
  intros ->. now rewrite skipn_app, skipn_all, Nat.sub_diag.
Qed.

Lemma submatches_two_groups (g1 g2 tail : bytes) a n :
  a = length g1 -> n = a + length g2 ->
  submatches (g1 ++ g2 ++ tail) n [n; a; a; 0] = [g1 ++ g2; g1; g2].
Proof.
  intros Ha Hn. unfold submatches, substr.
  cbn [rev app pair_up map fst snd skipn].
  rewrite Nat.sub_0_r. f_equal; [|f_equal; [|f_equal]].
  - rewrite app_assoc. apply firstn_length_app. rewrite length_app. lia.
  - now apply firstn_length_app.
  - rewrite (skipn_length_app g1) by assumption.
    apply firstn_length_app. lia.
Qed.

Lemma numbered_parts ds body tail :
  ds <> [] -> forallb is_digit ds = true ->
  ~ In nl body -> (tail = [] \/ exists t, tail = nl :: t) ->
  FindStringSubmatch numberedPartsRe (ds ++ lit ". " ++ body ++ tail)
  = [(ds ++ lit ". ") ++ body; ds ++ lit ". "; body].
Proof.
  intros Hne Hds Hbody Htail.
  unfold FindStringSubmatch. unfold numberedPartsRe at 1.
  rewrite search_anchored.
  change (Bol :: [GOpen; Plus CDigit; Lit "."; Lit " "; GClose; GOpen;
                  Star CDot; GClose]) with numberedPartsRe.
  rewrite exec_numbered_parts by assumption.
  rewrite (app_assoc ds (lit ". ") (body ++ tail)).
  rewrite submatches_two_groups; [reflexivity| |reflexivity].
  rewrite length_app. reflexivity.
Qed.

End Numbered.

(** ** The line classifier, case by case *)

Section Lines.

Lemma is_digit_not_meta d :
  is_digit d = true -> ~ In d (lit "#`-* ").
Proof.
  intros Hd H. simpl in H.
  repeat (destruct H as [<-|H]; [discriminate Hd|]). contradiction.
Qed.

Lemma renderLine_heading3 t :
  renderLine (lit "### " ++ t) = Yellow ++ Bold ++ t ++ Reset.
Proof. reflexivity. Qed.

Lemma renderLine_bullet_star rest :
  renderLine (lit "* " ++ rest) = Green ++ bullet ++ Reset ++ rest.
Proof. reflexivity. Qed.

Lemma renderLine_bullet_dash rest :
  renderLine (lit "- " ++ rest)
  = Green ++ bullet ++ Reset ++ TrimPrefix rest (lit "* ").
Proof. reflexivity. Qed.

Lemma renderLine_numbered ds body tail :
  ds <> [] -> forallb is_digit ds = true ->
  ~ In nl body -> (tail = [] \/ exists t, tail = nl :: t) ->
  renderLine (ds ++ lit ". " ++ body ++ tail)
  = Yellow ++ (ds ++ lit ". ") ++ Reset ++ body.
Proof.
  intros Hne Hds Hbody Htail. unfold renderLine.
  rewrite numbered_match, numbered_parts by assumption.
  destruct ds as [|d ds]; [contradiction|].
  simpl in Hds. apply andb_true_iff in Hds as [Hd _].
  pose proof (is_digit_not_meta d Hd) as Hmeta.
  assert (Hhash : Ascii.eqb d "#" = false)
    by (apply Ascii.eqb_neq; intros ->; apply Hmeta; simpl; tauto).
  assert (Htick : Ascii.eqb d "`" = false)
    by (apply Ascii.eqb_neq; intros ->; apply Hmeta; simpl; tauto).
  assert (Hdash : Ascii.eqb d "-" = false)
    by (apply Ascii.eqb_neq; intros ->; apply Hmeta; simpl; tauto).
  assert (Hstar : Ascii.eqb d "*" = false)
    by (apply Ascii.eqb_neq; intros ->; apply Hmeta; simpl; tauto).
  cbn [HasPrefix lit list_ascii_of_string app].
  rewrite Hhash, Htick, Hdash, Hstar. reflexivity.
Qed.

Lemma renderLine_cases line :
  (exists style p t,
      In (style, p) [(Yellow ++ Bold, lit "### "); (Blue ++ Bold, lit "## ");
                     (Magenta ++ Bold, lit "# ")]
      /\ line = p ++ t /\ renderLine line = style ++ t ++ Reset)
  \/ (exists t, line = lit "```" ++ t /\ renderLine line = Cyan ++ line ++ Reset)
  \/ (exists p t r,
        (p = lit "- " \/ p = lit "* ") /\ line = p ++ t
        /\ (r = t \/ t = lit "* " ++ r)
        /\ renderLine line = Green ++ bullet ++ Reset ++ r)
  \/ (exists ds body tail,
        ds <> [] /\ forallb is_digit ds = true
        /\ line = ds ++ lit ". " ++ body ++ tail
        /\ ~ In nl body /\ (tail = [] \/ exists t, tail = nl :: t)
        /\ renderLine line = Yellow ++ (ds ++ lit ". ") ++ Reset ++ body)
  \/ (~ numbered_prefix line
      /\ renderLine line = renderInlineFormatting line).
Proof.
  destruct (HasPrefix line (lit "### ")) eqn:E1.
  { apply HasPrefix_inv in E1 as [t ->]. left.
    exists (Yellow ++ Bold), (lit "### "), t. simpl; auto. }
  destruct (HasPrefix line (lit "## ")) eqn:E2.
  { apply HasPrefix_inv in E2 as [t ->]. left.
    exists (Blue ++ Bold), (lit "## "), t. simpl; auto. }
  destruct (HasPrefix line (lit "# ")) eqn:E3.
  { apply HasPrefix_inv in E3 as [t ->]. left.
    exists (Magenta ++ Bold), (lit "# "), t. simpl; auto 6. }
  destruct (HasPrefix line (lit "```")) eqn:E4.
  { apply HasPrefix_inv in E4 as [t ->]. right. left. now exists t. }
  destruct (HasPrefix line (lit "- ")) eqn:E5.
  { apply HasPrefix_inv in E5 as [t ->]. right. right. left.
    rewrite renderLine_bullet_dash. unfold TrimPrefix.
    destruct (HasPrefix t (lit "* ")) eqn:E6.
    - apply HasPrefix_inv in E6 as [r ->].
      exists (lit "- "), (lit "* " ++ r), r. auto.
    - exists (lit "- "), t, t. auto. }
  destruct (HasPrefix line (lit "* ")) eqn:E6.
  { apply HasPrefix_inv in E6 as [t ->]. right. right. left.
    exists (lit "* "), t, t. auto. }
  destruct (MatchString numberedRe line) eqn:E7.
  { apply numbered_inv in E7 as (ds & rest & Hne & Hds & ->).
    destruct (split_at_nl rest) as (body & tail & -> & Hbody & Htail).
    right. right. right. left. exists ds, body, tail.
    repeat split; auto. now apply renderLine_numbered. }
  right. right. right. right. split.
  - intros (ds & rest & Hne & Hds & ->).
    rewrite numbered_match in E7 by assumption. discriminate.
  - unfold renderLine. now rewrite E1, E2, E3, E4, E5, E6, E7.
Qed.

End Lines.

(** ** Documents *)

Section Documents.

Lemma Split_In s sep l c : In l (Split s sep) -> In c l -> In c s.
Proof.
  revert l. induction s as [|x s IH]; intros l Hl Hc; simpl in Hl.
  - destruct Hl as [<-|[]]. contradiction.
  - destruct (Ascii.eqb x sep).
    + destruct Hl as [<-|Hl]; [contradiction|]. right. now apply (IH l).
    + destruct (Split s sep) as [|piece pieces] eqn:E.
      * destruct Hl as [<-|[]]. destruct Hc as [->|[]]. now left.
      * destruct Hl as [<-|Hl].
        -- destruct Hc as [->|Hc]; [now left|right].
           apply (IH piece); [now left|assumption].
        -- right. apply (IH l); [now right|assumption].
Qed.

Lemma Split_app_sep a b :
  Split (a ++ nl :: b) nl = Split a nl ++ Split b nl.
Proof.
  induction a as [|x a IH]; [reflexivity|].
  simpl. destruct (Ascii.eqb x nl); rewrite IH; [reflexivity|].
  pose proof (Split_nonempty a nl).
  destruct (Split a nl); [contradiction|reflexivity].
Qed.

Lemma join_lines_cons l ls :
  ls <> [] -> join_lines (l :: ls) = l ++ nl :: join_lines ls.
Proof. destruct ls; [contradiction|reflexivity]. Qed.

Lemma join_lines_app ls1 ls2 :
  ls1 <> [] -> ls2 <> [] ->
  join_lines (ls1 ++ ls2) = join_lines ls1 ++ nl :: join_lines ls2.
Proof.
  intros H1 H2. induction ls1 as [|l ls1 IH]; [contradiction|].
  destruct ls1 as [|l' ls1].
  - simpl app. now apply join_lines_cons.
  - change ((l :: l' :: ls1) ++ ls2) with (l :: ((l' :: ls1) ++ ls2)).
    rewrite join_lines_cons by discriminate.
    rewrite IH by discriminate.
    rewrite (join_lines_cons l (l' :: ls1)) by discriminate.
    now rewrite <- app_assoc.
Qed.

Lemma join_lines_length (f : bytes -> bytes) ls :
  (forall l, In l ls -> length l <= length (f l)) ->
  length (join_lines ls) <= length (join_lines (map f ls)).
Proof.
  induction ls as [|l ls IH]; intros H; [simpl; lia|].
  destruct ls as [|l' ls].
  - simpl. apply H. now left.
  - assert (length l <= length (f l)) by (apply H; now left).
    assert (length (join_lines (l' :: ls))
            <= length (join_lines (map f (l' :: ls))))
      by (apply IH; intros l0 Hl0; apply H; now right).
    change (join_lines (map f (l :: l' :: ls)))
      with (f l ++ nl :: join_lines (map f (l' :: ls))).
    change (join_lines (l :: l' :: ls)) with (l ++ nl :: join_lines (l' :: ls)).
    rewrite !length_app.
    change (length (nl :: join_lines (l' :: ls)))
      with (S (length (join_lines (l' :: ls)))).
    change (length (nl :: join_lines (map f (l' :: ls))))
      with (S (length (join_lines (map f (l' :: ls))))).
    lia.
Qed.

Lemma RenderMarkdown_lines markdown :
  RenderMarkdown markdown = join_lines (map renderLine (Split markdown nl)).
Proof.
  unfold RenderMarkdown. rewrite fold_lines. simpl app.
  rewrite <- (map_map renderLine (fun l => l ++ [nl])).
  rewrite concat_lines.
  - apply TrimSuffix_app.
  - pose proof (Split_nonempty markdown nl).
    destruct (Split markdown nl); [contradiction|discriminate].
Qed.

End Documents.

(** ** Rendered lines *)

Section RenderedLines.

Lemma renderLine_length line :
  ~ In nl line -> ~ In "]" line -> length line <= length (renderLine line).
Proof.
  intros Hnl Hbr.
  destruct (renderLine_cases line)
    as [(style & p & t & Hin & -> & ->)
       |[(t & -> & ->)
        |[(p & t & r & Hp & -> & Hr & ->)
         |[(ds & body & tail & _ & _ & -> & _ & Htail & ->)
          |[_ ->]]]]].
  - simpl in Hin. destruct Hin as [E|[E|[E|[]]]]; inv E;
      rewrite !length_app; simpl; lia.
  - rewrite !length_app. simpl. lia.
  - rewrite !length_app.
    assert (length p = 2) by (destruct Hp; subst; reflexivity).
    destruct Hr as [->| ->]; simpl; lia.
  - destruct Htail as [->|[t ->]].
    + rewrite !length_app. simpl. lia.
    + exfalso. apply Hnl. rewrite !in_app_iff. right. right. right. now left.
  - now apply inline_length.
Qed.

Lemma renderLine_In line x :
  In x (renderLine line) -> In x line \/ In x (ESC :: lit "[0123456m")
  \/ In x bullet.
Proof.
  destruct (renderLine_cases line)
    as [(style & p & t & Hin & -> & ->)
       |[(t & -> & ->)
        |[(p & t & r & Hp & -> & Hr & ->)
         |[(ds & body & tail & _ & _ & -> & _ & Htail & ->)
          |[_ ->]]]]]; intros H.
  - rewrite !in_app_iff in H. destruct H as [H|[H|H]].
    + right. left. simpl in Hin.
      destruct Hin as [E|[E|[E|[]]]]; inv E; simpl in H; simpl; intuition.
    + left. rewrite in_app_iff. now right.
    + right. left. apply code_bytes. tauto.
  - rewrite !in_app_iff in H. destruct H as [H|[H|H]].
    + right. left. apply code_bytes. tauto.
    + left. rewrite in_app_iff. exact H.
    + right. left. apply code_bytes. tauto.
  - rewrite !in_app_iff in H. destruct H as [H|[H|[H|H]]].
    + right. left. apply code_bytes. tauto.
    + now right; right.
    + right. left. apply code_bytes. tauto.
    + left. rewrite in_app_iff. right.
      destruct Hr as [->| ->]; [assumption|]. rewrite in_app_iff. now right.
  - rewrite !in_app_iff in H. destruct H as [H|[[H|H]|[H|H]]].
    + right. left. apply code_bytes. tauto.
    + left. rewrite in_app_iff. now left.
    + left. rewrite !in_app_iff. right. now left.
    + right. left. apply code_bytes. tauto.
    + left. rewrite !in_app_iff. right. right. now left.
  - apply inline_In in H. tauto.
Qed.

Lemma renderLine_nl_free line : ~ In nl line -> ~ In nl (renderLine line).
Proof.
  intros Hfree H. apply renderLine_In in H as [H|[H|H]]; [contradiction| |];
    simpl in H; repeat (destruct H as [H|H]; [discriminate|]); contradiction.
Qed.



End RenderedLines.

(** ** From the last escape to every code *)

Section Codes.



End Codes.

(** ** A span that is the whole text *)

Section WholeSpan.

Lemma forallb_CNot d run :
  ~ In d run -> ~ In nl run -> forallb (cmatch (CNot [d; nl])) run = true.
Proof.
  induction run as [|x run IH]; intros Hd Hnl; [reflexivity|].
  simpl. rewrite IH; [|intros H; apply Hd; now right|intros H; apply Hnl; now right].
  destruct (Ascii.eqb x d) eqn:E1.
  { apply Ascii.eqb_eq in E1. subst x. exfalso. apply Hd. now left. }
  destruct (Ascii.eqb x nl) eqn:E2.
  { apply Ascii.eqb_eq in E2. subst x. exfalso. apply Hnl. now left. }
  reflexivity.
Qed.

Lemma span_step_whole o0 o k c0 c style repl run :
  (forall w g, expand repl [w; g] = style ++ g ++ Reset) ->
  forallb (cmatch k) run = true ->
  ~ In c0 run ->
  spanStep (o0 :: o) k (c0 :: c) repl ((o0 :: o) ++ run ++ (c0 :: c))
  = style ++ run ++ Reset.
Proof.
  intros Hexp Hrun Hfree. unfold spanStep, ReplaceAllString.
  pose proof (exec_span_run true (o0 :: o) k c0 c run [] Hrun Hfree) as Hexec.
  remember ((o0 :: o) ++ run ++ (c0 :: c)) as m eqn:Em.
  assert (E1 : (o0 :: o) ++ run ++ (c0 :: c) ++ [] = m ++ [])
    by (subst m; now rewrite <- !app_assoc).
  assert (E2 : length (o0 :: o) + length run + length (c0 :: c) = length m)
    by (subst m; rewrite !length_app; lia).
  rewrite E1, E2 in Hexec.
  assert (Hne : m <> []) by (subst m; discriminate).
  rewrite <- (app_nil_r m).
  rewrite (replace_scan_match _ _ true m [] _ Hne Hexec).
  unfold submatches. cbn [rev app pair_up map fst snd].
  rewrite Hexp. subst m.
  change (replace_scan (spanRe (o0 :: o) k (c0 :: c)) repl false 0 [])
    with (@nil ascii).
  rewrite !app_nil_r, substr_middle.
  now rewrite <- ?app_assoc.
Qed.

End WholeSpan.

(** ** The renderer on the examples of the specification *)

Example render_bold :
  RenderMarkdown (lit "**bold**") = Bold ++ lit "bold" ++ Reset.
Proof. vm_compute. reflexivity. Qed.

Example render_italic :
  RenderMarkdown (lit "*italic*") = Italic ++ lit "italic" ++ Reset.
Proof. vm_compute. reflexivity. Qed.

Example render_title :
  RenderMarkdown (lit "# Title") = Magenta ++ Bold ++ lit "Title" ++ Reset.
Proof. vm_compute. reflexivity. Qed.

Example render_item :
  RenderMarkdown (lit "- item") = Green ++ bullet ++ Reset ++ lit "item".
Proof. vm_compute. reflexivity. Qed.

Example render_first :
  RenderMarkdown (lit "1. first") = Yellow ++ lit "1. " ++ Reset ++ lit "first".
Proof. vm_compute. reflexivity. Qed.

Example render_code :
  RenderMarkdown (lit "`code`") = Cyan ++ lit "code" ++ Reset.
Proof. vm_compute. reflexivity. Qed.

Example render_link :
  RenderMarkdown (lit "[label](http://x)")
  = Blue ++ Underline ++ lit "label" ++ Reset.
Proof. vm_compute. reflexivity. Qed.

Example render_two_lines :
  RenderMarkdown (lit "# T" ++ nl :: lit "plain")
  = Magenta ++ Bold ++ lit "T" ++ Reset ++ nl :: lit "plain".
Proof. vm_compute. reflexivity. Qed.

(** ** Properties of the renderer *)

(** The table of span substitutions lists the first five steps. *)
Lemma spanTable_steps :
  map (fun r => (snd (fst r), snd r ++ lit "$1" ++ Reset)) spanTable
  = firstn 5 inlineSteps.
Proof. reflexivity. Qed.

(** C1, as the code has it.  The line made of two asterisks, "a ", "b"
    between single asterisks, " c" and two asterisks is left unchanged by
    the bold pass, whose group cannot hold an asterisk; the italic pass
    then pairs the asterisks from left to right.  The rendering is
    Italic + Reset + "a " + Italic + "b" + Reset + " c" + Italic + Reset. *)
Theorem nested_bold_renders_as_italics :
  ReplaceAllString boldRe (lit "**a *b* c**") (Bold ++ lit "$1" ++ Reset)
  = lit "**a *b* c**"
  /\ RenderMarkdown (lit "**a *b* c**")
     = Italic ++ Reset ++ lit "a " ++ Italic ++ lit "b" ++ Reset
       ++ lit " c" ++ Italic ++ Reset.
Proof. split; vm_compute; reflexivity. Qed.

(** C1 as stated fails: the rendering is not
    Bold + "a " + Italic + "b" + Reset + " c" + Reset. *)
Lemma nested_bold_not_bold :
  RenderMarkdown (lit "**a *b* c**")
  <> Bold ++ lit "a " ++ Italic ++ lit "b" ++ Reset ++ lit " c" ++ Reset.
Proof. intros H. vm_compute in H. discriminate H. Qed.

(** C2, as the code has it.  A bullet line has its two-byte prefix replaced
    by Green + bullet + Reset and an ordered-list line has its numeral
    prefix wrapped in Yellow ... Reset; the rest of the line is appended as
    it is, with no inline transformation.  This holds for every item of a
    star bullet, for every item of a dash bullet that does not itself begin
    with an asterisk and a space, and for every newline-free item of an
    ordered list, whatever the items begin with. *)
Theorem list_items_keep_rest_verbatim (p item ds rest : bytes) :
  p = lit "* " \/ (p = lit "- " /\ HasPrefix item (lit "* ") = false) ->
  ds <> [] -> forallb is_digit ds = true ->
  ~ In nl rest ->
  renderLine (p ++ item) = Green ++ bullet ++ Reset ++ item
  /\ renderLine (ds ++ lit ". " ++ rest)
     = Yellow ++ (ds ++ lit ". ") ++ Reset ++ rest.
Proof.
  intros Hp Hne Hds Hnl. split.
  - destruct Hp as [-> | [-> Hstar]].
    + apply renderLine_bullet_star.
    + rewrite renderLine_bullet_dash. unfold TrimPrefix. now rewrite Hstar.
  - rewrite <- (app_nil_r rest) at 1.
    rewrite (renderLine_numbered ds rest []); auto.
Qed.

Lemma list_items_keep_rest_verbatim_witness :
  (lit "* " = lit "* "
   \/ (lit "* " = lit "- " /\ HasPrefix (lit "* **a** b") (lit "* ") = false))
  /\ lit "12" <> []
  /\ forallb is_digit (lit "12") = true
  /\ ~ In nl (lit "* **a** b")
  /\ renderLine (lit "* " ++ lit "* **a** b")
     = Green ++ bullet ++ Reset ++ lit "* **a** b"
  /\ renderLine (lit "12" ++ lit ". " ++ lit "* **a** b")
     = Yellow ++ (lit "12" ++ lit ". ") ++ Reset ++ lit "* **a** b".
Proof.
  split; [now left|]. split; [discriminate|]. split; [reflexivity|].
  split; [not_in|].
  apply (list_items_keep_rest_verbatim (lit "* ") (lit "* **a** b") (lit "12")
           (lit "* **a** b"));
    [now left|discriminate|reflexivity|not_in].
Defined.

(** C2 as stated fails: the text of a list item is not passed through the
    inline transformation. *)
Lemma list_items_not_inline_rendered :
  renderLine (lit "- **a**")
  <> Green ++ bullet ++ Reset ++ renderInlineFormatting (lit "**a**")
  /\ renderLine (lit "1. **a**")
     <> Yellow ++ lit "1. " ++ Reset ++ renderInlineFormatting (lit "**a**").
Proof. split; intros H; vm_compute in H; discriminate H. Qed.

(** C3, as the code has it.  The codes a step inserts contain no asterisk,
    underscore, backtick, closing bracket, parenthesis or newline: for
    every text, each of the six steps yields a text with at most as many
    occurrences of each of these bytes as it received, so no step creates
    such a delimiter for a later step to match.  (The patterns exclude only
    their own delimiter and the newline, not the escape character, so a
    later pattern can match inside a span that an earlier step wrote.) *)
Theorem steps_add_no_delimiters (step : regex * bytes) (c : ascii)
  (text : bytes) :
  In step inlineSteps ->
  In c (nl :: lit "*_`]()") ->
  occurrences c (applyStep text step) <= occurrences c text.
Proof.
  intros Hstep Hc.
  assert (Hcodes : ~ In c (ESC :: lit "[0123456m")).
  { simpl in Hc. repeat (destruct Hc as [<-|Hc]; [not_in|]). contradiction. }
  assert (Hreset : ~ In c Reset)
    by (intros H; apply Hcodes, code_bytes; tauto).
  simpl in Hstep.
  destruct Hstep as [<-|[<-|[<-|[<-|[<-|[<-|[]]]]]]].
  - apply (span_step_occurrences (lit "**") _ (lit "**") Bold _ expand_Bold);
      [|assumption]. intros H. apply Hcodes, code_bytes. tauto.
  - apply (span_step_occurrences (lit "__") _ (lit "__") Bold _ expand_Bold);
      [|assumption]. intros H. apply Hcodes, code_bytes. tauto.
  - apply (span_step_occurrences (lit "*") _ (lit "*") Italic _ expand_Italic);
      [|assumption]. intros H. apply Hcodes, code_bytes. tauto.
  - apply (span_step_occurrences (lit "_") _ (lit "_") Italic _ expand_Italic);
      [|assumption]. intros H. apply Hcodes, code_bytes. tauto.
  - apply (span_step_occurrences (lit "`") _ (lit "`") Cyan _ expand_Cyan);
      [|assumption]. intros H. apply Hcodes, code_bytes. tauto.
  - apply link_step_occurrences; [|assumption].
    intros H. apply Hcodes, code_bytes. tauto.
Qed.

Lemma steps_add_no_delimiters_witness :
  In (italicRe, Italic ++ lit "$1" ++ Reset) inlineSteps
  /\ In "*" (nl :: lit "*_`]()")
  /\ occurrences "*"
       (applyStep (lit "*a* b*") (italicRe, Italic ++ lit "$1" ++ Reset))
     <= occurrences "*" (lit "*a* b*").
Proof.
  split; [simpl; tauto|]. split; [simpl; tauto|].
  apply (steps_add_no_delimiters (italicRe, Italic ++ lit "$1" ++ Reset) "*"
           (lit "*a* b*")); simpl; tauto.
Defined.

(** C3 as stated fails.  In the line made of "a_b_c" between double
    asterisks the bold step replaces the whole text by one span, which the
    next two steps leave alone; the pattern of the later underscore-italic
    step then matches at offset 5, inside that span, and italic codes end
    up within it.  In the line "**a**[b](c)" the link pattern matches at
    offset 1, on the bracket of the Bold code that the first step wrote. *)
Lemma later_step_matches_inside_span :
  let tmplB := Bold ++ lit "$1" ++ Reset in
  let tmplI := Italic ++ lit "$1" ++ Reset in
  let span := ReplaceAllString boldRe (lit "**a_b_c**") tmplB in
  let span' := ReplaceAllString boldRe (lit "**a**[b](c)") tmplB in
  span = Bold ++ lit "a_b_c" ++ Reset
  /\ ReplaceAllString italicRe (ReplaceAllString boldRe2 span tmplB) tmplI = span
  /\ matches_at italicRe2 span 5
  /\ renderInlineFormatting (lit "**a_b_c**")
     = Bold ++ lit "a" ++ Italic ++ lit "b" ++ Reset ++ lit "c" ++ Reset
  /\ span' = Bold ++ lit "a" ++ Reset ++ lit "[b](c)"
  /\ matches_at linkRe span' 1
  /\ renderInlineFormatting (lit "**a**[b](c)")
     = [ESC] ++ Blue ++ Underline ++ lit "1ma" ++ Reset ++ lit "[b" ++ Reset.
Proof.
  cbv zeta. repeat split; try (vm_compute; reflexivity);
    eexists; vm_compute; reflexivity.
Qed.

(** C4, as the code has it.  For every input without a closing bracket, so
    that no link can match, the rendered output is at least as long as the
    input: headings, fences, list prefixes and the bold, italic and code
    substitutions never remove more bytes than they add. *)
Theorem render_length_without_links (markdown : bytes) :
  ~ In "]" markdown -> length markdown <= length (RenderMarkdown markdown).
Proof.
  intros Hfree. rewrite RenderMarkdown_lines.
  rewrite <- (join_Split markdown) at 1.
  apply join_lines_length. intros l Hl.
  apply renderLine_length.
  - pose proof (Split_pieces_free markdown nl) as Hpieces.
    rewrite Forall_forall in Hpieces. now apply Hpieces.
  - intros H. apply Hfree. now apply (Split_In markdown nl l).
Qed.

Lemma render_length_without_links_witness :
  ~ In "]" (lit "# T" ++ nl :: lit "**b** and `c`")
  /\ length (lit "# T" ++ nl :: lit "**b** and `c`")
     <= length (RenderMarkdown (lit "# T" ++ nl :: lit "**b** and `c`")).
Proof.
  split; [not_in|].
  apply (render_length_without_links (lit "# T" ++ nl :: lit "**b** and `c`")).
  not_in.
Defined.

(** C4 as stated fails: a link whose target is longer than nine bytes makes
    the output shorter than the input, the target being dropped. *)
Lemma link_shortens_output :
  length (RenderMarkdown (lit "[a](bbbbbbbbbbbbbbbbbbbb)"))
  < length (lit "[a](bbbbbbbbbbbbbbbbbbbb)").
Proof. vm_compute. lia. Qed.

(** C6.  A string that contains none of the metacharacters (asterisk,
    underscore, backtick, hash, dash, brackets, parentheses) and none of
    whose lines begins with digits, a period and a space is rendered as
    itself. *)
Theorem render_identity_on_plain_text (s : bytes) :
  free_of metachars s ->
  (forall l, In l (Split s nl) -> ~ numbered_prefix l) ->
  RenderMarkdown s = s.
Proof.
  intros Hfree Hnum. rewrite RenderMarkdown_lines.
  rewrite <- (join_Split s) at 2. f_equal.
  rewrite <- (map_id (Split s nl)) at 2.
  apply map_ext_in. intros l Hl.
  assert (Hl_free : forall c, In c metachars -> ~ In c l).
  { intros c Hc H. apply (Hfree c Hc). now apply (Split_In s nl l). }
  destruct (renderLine_cases l)
    as [(style & p & t & Hin & -> & _)
       |[(t & -> & _)
        |[(p & t & r & Hp & -> & _)
         |[(ds & body & tail & Hne & Hds & -> & _)
          |[_ ->]]]]].
  - exfalso. apply (Hl_free "#"); [simpl; tauto|].
    simpl in Hin. destruct Hin as [E|[E|[E|[]]]]; inv E; now left.
  - exfalso. apply (Hl_free "`"); [simpl; tauto|]. now left.
  - exfalso. destruct Hp as [-> | ->].
    + apply (Hl_free "-"); [simpl; tauto|]. now left.
    + apply (Hl_free "*"); [simpl; tauto|]. now left.
  - exfalso. apply (Hnum _ Hl). now exists ds, (body ++ tail).
  - assert (Hz : forall c, In c metachars -> occurrences c l = 0)
      by (intros c Hc; apply occurrences_zero; auto).
    apply (inline_id l "[").
    + rewrite Hz; [lia|simpl; tauto].
    + rewrite Hz; [lia|simpl; tauto].
    + rewrite Hz; [lia|simpl; tauto].
    + simpl; tauto.
    + apply Hl_free. simpl; tauto.
Qed.

Lemma render_identity_on_plain_text_witness :
  free_of metachars (lit "Plain text, 1. one" ++ nl :: lit "and two.")
  /\ (forall l,
        In l (Split (lit "Plain text, 1. one" ++ nl :: lit "and two.") nl) ->
        ~ numbered_prefix l)
  /\ RenderMarkdown (lit "Plain text, 1. one" ++ nl :: lit "and two.")
     = lit "Plain text, 1. one" ++ nl :: lit "and two.".
Proof.
  assert (Hfree : free_of metachars
                    (lit "Plain text, 1. one" ++ nl :: lit "and two.")).
  { intros c Hc. simpl in Hc.
    repeat (destruct Hc as [<-|Hc]; [not_in|]). contradiction. }
  assert (Hnum : forall l,
             In l (Split (lit "Plain text, 1. one" ++ nl :: lit "and two.") nl)
             -> ~ numbered_prefix l).
  { intros l Hl (ds & rest & Hne & Hds & E).
    destruct ds as [|d ds]; [contradiction|].
    simpl in Hl. destruct Hl as [<-|[<-|[]]];
      simpl in E; injection E as <- _; discriminate Hds. }
  split; [exact Hfree|]. split; [exact Hnum|].
  exact (render_identity_on_plain_text _ Hfree Hnum).
Defined.

(** C7.  Rendering a document is splitting it on newlines, rendering each
    line on its own and joining the rendered lines with newlines, the
    newline that the loop appends after the last line being stripped.  No
    line depends on another: the rendering of two texts separated by a
    newline is the two renderings separated by a newline. *)
Theorem RenderMarkdown_by_lines :
  (forall markdown, RenderMarkdown markdown = render_by_lines markdown)
  /\ (forall a b,
        RenderMarkdown (a ++ nl :: b)
        = RenderMarkdown a ++ nl :: RenderMarkdown b).
Proof.
  split.
  - apply RenderMarkdown_lines.
  - intros a b. rewrite !RenderMarkdown_lines, Split_app_sep, map_app.
    apply join_lines_app.
    + pose proof (Split_nonempty a nl). destruct (Split a nl);
        [contradiction|discriminate].
    + pose proof (Split_nonempty b nl). destruct (Split b nl);
        [contradiction|discriminate].
Qed.




(** C10.  A line that begins with a dash, a space, an asterisk and a space
    loses both prefixes: it is rendered as Green + bullet + Reset followed
    by what comes after the second prefix, and the asterisk is dropped. *)
Theorem dash_star_prefix_dropped (rest : bytes) :
  renderLine (lit "- * " ++ rest) = Green ++ bullet ++ Reset ++ rest.
Proof.
  change (lit "- * " ++ rest) with (lit "- " ++ lit "* " ++ rest).
  rewrite renderLine_bullet_dash.
  now rewrite TrimPrefix_app.
Qed.

(** * Further properties of the renderer *)

(** ** Lines in, lines out *)

(** X1.  The rendering has the lines of the input, each rendered on its
    own: splitting the output on newlines gives the renderings of the
    input lines, in order.  In particular the output has as many lines as
    the input. *)
Theorem RenderMarkdown_line_by_line (markdown : bytes) :
  Split (RenderMarkdown markdown) nl = map renderLine (Split markdown nl).
Proof.
  rewrite RenderMarkdown_lines.
  pose proof (Split_pieces_free markdown nl) as Hpieces.
  rewrite Forall_forall in Hpieces.
  apply Split_join.
  - pose proof (Split_nonempty markdown nl).
    destruct (Split markdown nl); [contradiction|discriminate].
  - rewrite Forall_forall. intros out Hout.
    apply in_map_iff in Hout as (l & <- & Hl).
    apply renderLine_nl_free. now apply Hpieces.
Qed.

(** ** A pass, match by match *)

Section Unanchored.

Lemma lazy_star_ext k (f g : cont) :
  (forall s i marks, f s i marks = g s i marks) ->
  forall s i marks, lazy_star k f s i marks = lazy_star k g s i marks.
Proof.
  intros Hfg s. induction s as [|x s IH]; intros i marks; simpl;
    rewrite Hfg; [reflexivity|].
  destruct (g (x :: s) i marks); [reflexivity|].
  destruct (cmatch k x); [apply IH|reflexivity].
Qed.

Lemma greedy_star_ext k (f g : cont) :
  (forall s i marks, f s i marks = g s i marks) ->
  forall s i marks, greedy_star k f s i marks = greedy_star k g s i marks.
Proof.
  intros Hfg s. induction s as [|x s IH]; intros i marks; simpl;
    [apply Hfg|].
  destruct (cmatch k x); [|apply Hfg]. now rewrite IH, Hfg.
Qed.

(** A pattern without [^] matches alike at the beginning of the text and
    elsewhere. *)
Lemma exec_unanchored p b b' :
  ~ In Bol p -> forall s i marks, exec b p s i marks = exec b' p s i marks.
Proof.
  induction p as [|nd p IH]; intros Hbol s i marks; [reflexivity|].
  assert (Hp : ~ In Bol p) by (intros H; apply Hbol; now right).
  specialize (IH Hp).
  destruct nd; simpl.
  - exfalso. apply Hbol. now left.
  - destruct s as [|x s]; [reflexivity|].
    destruct (Ascii.eqb x c); [apply IH|reflexivity].
  - now apply lazy_star_ext.
  - now apply greedy_star_ext.
  - destruct s as [|x s]; [reflexivity|].
    destruct (cmatch k x); [now apply greedy_star_ext|reflexivity].
  - apply IH.
  - apply IH.
Qed.

Lemma replace_scan_unanchored p repl b b' skip s :
  ~ In Bol p -> replace_scan p repl b skip s = replace_scan p repl b' skip s.
Proof.
  intros Hbol. destruct skip as [|k].
  - rewrite !replace_scan_0. now rewrite (exec_unanchored p b b' Hbol).
  - destruct s; reflexivity.
Qed.

(** Text without the first byte of the pattern is copied. *)
Lemma replace_scan_prefix d0 p repl pre t b :
  ~ In Bol p -> ~ In d0 pre ->
  replace_scan (Lit d0 :: p) repl b 0 (pre ++ t)
  = pre ++ replace_scan (Lit d0 :: p) repl b 0 t.
Proof.
  intros Hbol. revert b. induction pre as [|x pre IH]; intros b Hfree;
    [reflexivity|].
  assert (Hbol' : ~ In Bol (Lit d0 :: p))
    by (intros [H|H]; [discriminate|contradiction]).
  assert (Hx : Ascii.eqb x d0 = false).
  { apply Ascii.eqb_neq. intros ->. apply Hfree. now left. }
  simpl app. rewrite replace_scan_copy by (simpl; now rewrite Hx).
  rewrite IH by (intros H; apply Hfree; now right).
  now rewrite (replace_scan_unanchored _ repl false b 0 t Hbol').
Qed.

Lemma spanRe_unanchored o k c : ~ In Bol (spanRe o k c).
Proof.
  unfold spanRe. rewrite !in_app_iff, !in_map_iff.
  intros [(x & H & _)|[[H|[H|[H|[]]]]|(x & H & _)]]; discriminate.
Qed.

End Unanchored.

Section Laws.

Lemma lazy_star_run k (rest : cont) cap t : forall i marks r,
  forallb (cmatch k) cap = true ->
  (forall x s j ms, In x cap -> rest (x :: s) j ms = None) ->
  rest t (i + length cap) marks = Some r ->
  lazy_star k rest (cap ++ t) i marks = Some r.
Proof.
  induction cap as [|x cap IH]; intros i marks r Hk Hfail Hrest.
  - simpl in *. rewrite Nat.add_0_r in Hrest.
    destruct t; simpl; now rewrite Hrest.
  - simpl in Hk. apply andb_true_iff in Hk as [Hx Hk].
    simpl. rewrite (Hfail x _ _ _ (or_introl eq_refl)), Hx.
    apply IH; [assumption| |].
    + intros y s j ms Hy. apply Hfail. now right.
    + simpl length in Hrest. now rewrite <- Nat.add_succ_comm in Hrest.
Qed.

(** A link whose label holds no closing bracket and whose target holds no
    closing parenthesis is matched from its opening bracket. *)
Lemma exec_link_run bot label target rest :
  free_of ["]"; nl] label -> free_of [")"; nl] target ->
  exec bot linkRe
    (lit "[" ++ label ++ lit "](" ++ target ++ lit ")" ++ rest) 0 []
  = Some (1 + length label + 2 + length target + 1, [1 + length label; 1]).
Proof.
  intros Hlabel Htarget.
  assert (Hl : forallb (cmatch (CNot ["]"; nl])) label = true)
    by (apply forallb_CNot; apply Hlabel; simpl; tauto).
  assert (Ht : forallb (cmatch (CNot [")"; nl])) target = true)
    by (apply forallb_CNot; apply Htarget; simpl; tauto).
  change (exec bot linkRe
            (lit "[" ++ label ++ lit "](" ++ target ++ lit ")" ++ rest) 0 [])
    with (lazy_star (CNot ["]"; nl])
            (exec bot [GClose; Lit "]"; Lit "("; LazyStar (CNot [")"; nl]);
                       Lit ")"])
            (label ++ lit "](" ++ target ++ lit ")" ++ rest) 1 [1]).
  apply lazy_star_to_literal; [assumption|apply Hlabel; simpl; tauto|].
  change (exec bot [GClose; Lit "]"; Lit "("; LazyStar (CNot [")"; nl]);
                    Lit ")"]
            (lit "](" ++ target ++ lit ")" ++ rest) (1 + length label) [1])
    with (lazy_star (CNot [")"; nl]) (exec bot [Lit ")"])
            (target ++ lit ")" ++ rest) (S (S (1 + length label)))
            [1 + length label; 1]).
  apply lazy_star_run; [assumption| |].
  - intros x s j ms Hx. simpl.
    destruct (Ascii.eqb x ")") eqn:E; [|reflexivity].
    apply Ascii.eqb_eq in E. subst x. exfalso.
    apply (Htarget ")"); simpl; tauto.
  - simpl. f_equal. f_equal. lia.
Qed.

Lemma linkRe_unanchored : ~ In Bol linkRe.
Proof. simpl. intros H. repeat (destruct H as [H|H]; [discriminate|]). exact H. Qed.

(** One step of a span pass: text without the delimiter is copied, the
    first span is replaced, and the pass goes on behind it. *)
Lemma span_step_law o0 o k c0 c style repl pre run rest :
  (forall w g, expand repl [w; g] = style ++ g ++ Reset) ->
  ~ In o0 pre ->
  forallb (cmatch k) run = true ->
  ~ In c0 run ->
  spanStep (o0 :: o) k (c0 :: c) repl
    (pre ++ (o0 :: o) ++ run ++ (c0 :: c) ++ rest)
  = pre ++ style ++ run ++ Reset ++ spanStep (o0 :: o) k (c0 :: c) repl rest.
Proof.
  intros Hexp Hpre Hrun Hfree. unfold spanStep, ReplaceAllString.
  pose proof (spanRe_unanchored (o0 :: o) k (c0 :: c)) as Hbol.
  change (spanRe (o0 :: o) k (c0 :: c))
    with (Lit o0 :: (map Lit o ++ [GOpen; LazyStar k; GClose]
                       ++ map Lit (c0 :: c))) in *.
  rewrite replace_scan_prefix;
    [|intros H; apply Hbol; now right|assumption].
  f_equal.
  pose proof (exec_span_run true (o0 :: o) k c0 c run rest Hrun Hfree) as Hexec.
  remember ((o0 :: o) ++ run ++ (c0 :: c)) as m eqn:Em.
  assert (E1 : (o0 :: o) ++ run ++ (c0 :: c) ++ rest = m ++ rest)
    by (subst m; now rewrite <- !app_assoc).
  assert (E2 : length (o0 :: o) + length run + length (c0 :: c) = length m)
    by (subst m; rewrite !length_app; lia).
  rewrite E1, E2 in Hexec. rewrite E1.
  assert (Hne : m <> []) by (subst m; discriminate).
  change (Lit o0 :: (map Lit o ++ [GOpen; LazyStar k; GClose]
                       ++ map Lit (c0 :: c)))
    with (spanRe (o0 :: o) k (c0 :: c)) in *.
  rewrite (replace_scan_match _ _ true m rest _ Hne Hexec).
  unfold submatches. cbn [rev app pair_up map fst snd].
  rewrite Hexp. rewrite <- E1, substr_middle.
  rewrite (replace_scan_unanchored _ repl false true 0 rest Hbol).
  now rewrite <- !app_assoc.
Qed.

(** One step of the link pass. *)
Lemma link_step_law pre label target rest :
  ~ In "[" pre ->
  free_of ["]"; nl] label -> free_of [")"; nl] target ->
  linkStep (pre ++ lit "[" ++ label ++ lit "](" ++ target ++ lit ")" ++ rest)
  = pre ++ (Blue ++ Underline) ++ label ++ Reset ++ linkStep rest.
Proof.
  intros Hpre Hlabel Htarget. unfold linkStep, ReplaceAllString.
  pose proof linkRe_unanchored as Hbol.
  change linkRe
    with (Lit "[" :: [GOpen; LazyStar (CNot ["]"; nl]); GClose; Lit "]";
                      Lit "("; LazyStar (CNot [")"; nl]); Lit ")"]) in *.
  rewrite replace_scan_prefix;
    [|intros H; apply Hbol; now right|assumption].
  f_equal.
  change (Lit "[" :: [GOpen; LazyStar (CNot ["]"; nl]); GClose; Lit "]";
                      Lit "("; LazyStar (CNot [")"; nl]); Lit ")"])
    with linkRe in *.
  pose proof (exec_link_run true label target rest Hlabel Htarget) as Hexec.
  remember (lit "[" ++ label ++ lit "](" ++ target ++ lit ")") as m eqn:Em.
  assert (E1 : lit "[" ++ label ++ lit "](" ++ target ++ lit ")" ++ rest
               = m ++ rest)
    by (subst m; now rewrite <- !app_assoc).
  assert (E2 : 1 + length label + 2 + length target + 1 = length m)
    by (subst m; rewrite !length_app; simpl; lia).
  rewrite E1, E2 in Hexec. rewrite E1.
  assert (Hne : m <> []) by (subst m; discriminate).
  rewrite (replace_scan_match _ _ true m rest _ Hne Hexec).
  unfold submatches. cbn [rev app pair_up map fst snd].
  rewrite expand_Link. rewrite <- E1.
  rewrite (substr_middle (lit "[") label).
  rewrite (replace_scan_unanchored _ _ false true 0 rest Hbol).
  now rewrite <- !app_assoc.
Qed.

End Laws.

(** X2.  A span pass works from left to right: text before the first
    delimiter is copied, the first pair of delimiters around a run that
    holds neither the delimiter nor a newline is replaced by the style, the
    run and Reset (the shortest span: it ends at the next delimiter), and
    the pass goes on with the text behind it. *)
Theorem span_pass_left_to_right (delim : bytes) (re : regex)
  (style pre run rest : bytes) :
  In (delim, re, style) spanTable ->
  free_of delim pre ->
  free_of (nl :: delim) run ->
  ReplaceAllString re (pre ++ delim ++ run ++ delim ++ rest)
    (style ++ lit "$1" ++ Reset)
  = pre ++ style ++ run ++ Reset
    ++ ReplaceAllString re rest (style ++ lit "$1" ++ Reset).
Proof.
  intros Hin Hpre Hrun.
  assert (Hnl : ~ In nl run) by (apply Hrun; now left).
  simpl in Hin.
  destruct Hin as [E|[E|[E|[E|[E|[]]]]]]; inv E.
  - assert (Hd : ~ In "*" run) by (apply Hrun; simpl; tauto).
    apply (span_step_law "*" ["*"] (CNot ["*"; nl]) "*" ["*"] Bold _ pre run
             rest expand_Bold);
      [apply Hpre; simpl; tauto|now apply forallb_CNot|assumption].
  - assert (Hd : ~ In "_" run) by (apply Hrun; simpl; tauto).
    apply (span_step_law "_" ["_"] (CNot ["_"; nl]) "_" ["_"] Bold _ pre run
             rest expand_Bold);
      [apply Hpre; simpl; tauto|now apply forallb_CNot|assumption].
  - assert (Hd : ~ In "*" run) by (apply Hrun; simpl; tauto).
    apply (span_step_law "*" [] (CNot ["*"; nl]) "*" [] Italic _ pre run
             rest expand_Italic);
      [apply Hpre; simpl; tauto|now apply forallb_CNot|assumption].
  - assert (Hd : ~ In "_" run) by (apply Hrun; simpl; tauto).
    apply (span_step_law "_" [] (CNot ["_"; nl]) "_" [] Italic _ pre run
             rest expand_Italic);
      [apply Hpre; simpl; tauto|now apply forallb_CNot|assumption].
  - assert (Hd : ~ In "`" run) by (apply Hrun; simpl; tauto).
    apply (span_step_law "`" [] (CNot ["`"; nl]) "`" [] Cyan _ pre run
             rest expand_Cyan);
      [apply Hpre; simpl; tauto|now apply forallb_CNot|assumption].
Qed.

Ltac free_of_tac :=
  let c := fresh "c" in
  let Hc := fresh "Hc" in
  intros c Hc; simpl in Hc;
  repeat (destruct Hc as [<-|Hc]; [not_in|]); contradiction.

Lemma span_pass_left_to_right_witness :
  In (lit "**", boldRe, Bold) spanTable
  /\ free_of (lit "**") (lit "see ")
  /\ free_of (nl :: lit "**") (lit "a b")
  /\ ReplaceAllString boldRe
       (lit "see " ++ lit "**" ++ lit "a b" ++ lit "**" ++ lit " and **c**")
       (Bold ++ lit "$1" ++ Reset)
     = lit "see " ++ Bold ++ lit "a b" ++ Reset
       ++ ReplaceAllString boldRe (lit " and **c**") (Bold ++ lit "$1" ++ Reset).
Proof.
  split; [simpl; tauto|]. split; [free_of_tac|]. split; [free_of_tac|].
  apply (span_pass_left_to_right (lit "**") boldRe Bold (lit "see ")
           (lit "a b") (lit " and **c**"));
    [simpl; tauto|free_of_tac|free_of_tac].
Defined.

(** X3.  The link pass works from left to right: text before the first
    opening bracket is copied, and a link whose label holds no closing
    bracket or newline and whose target holds no closing parenthesis or
    newline is replaced by Blue + Underline + label + Reset; the target
    does not reach the output. *)
Theorem link_pass_left_to_right (pre label target rest : bytes) :
  ~ In "[" pre ->
  free_of ["]"; nl] label ->
  free_of [")"; nl] target ->
  ReplaceAllString linkRe
    (pre ++ lit "[" ++ label ++ lit "](" ++ target ++ lit ")" ++ rest)
    (Blue ++ Underline ++ lit "$1" ++ Reset)
  = pre ++ Blue ++ Underline ++ label ++ Reset
    ++ ReplaceAllString linkRe rest (Blue ++ Underline ++ lit "$1" ++ Reset).
Proof.
  intros Hpre Hlabel Htarget.
  pose proof (link_step_law pre label target rest Hpre Hlabel Htarget) as H.
  unfold linkStep in H. rewrite H. now rewrite <- !app_assoc.
Qed.

Lemma link_pass_left_to_right_witness :
  ~ In "[" (lit "see ")
  /\ free_of ["]"; nl] (lit "the docs")
  /\ free_of [")"; nl] (lit "http://x/a_b")
  /\ ReplaceAllString linkRe
       (lit "see " ++ lit "[" ++ lit "the docs" ++ lit "]("
        ++ lit "http://x/a_b" ++ lit ")" ++ lit " now")
       (Blue ++ Underline ++ lit "$1" ++ Reset)
     = lit "see " ++ Blue ++ Underline ++ lit "the docs" ++ Reset
       ++ ReplaceAllString linkRe (lit " now")
            (Blue ++ Underline ++ lit "$1" ++ Reset).
Proof.
  split; [not_in|]. split; [free_of_tac|]. split; [free_of_tac|].
  apply (link_pass_left_to_right (lit "see ") (lit "the docs")
           (lit "http://x/a_b") (lit " now"));
    [not_in|free_of_tac|free_of_tac].
Defined.

(** ** One construct on a line *)

Section SingleConstruct.

Lemma boldStep_id t : occurrences "*" t < 4 -> boldStep t = t.
Proof.
  intros H.
  now apply (span_step_id (lit "**") _ (lit "**") Bold _ expand_Bold t "*").
Qed.

Lemma boldStep2_id t : occurrences "_" t < 4 -> boldStep2 t = t.
Proof.
  intros H.
  now apply (span_step_id (lit "__") _ (lit "__") Bold _ expand_Bold t "_").
Qed.

Lemma italicStep_id t : occurrences "*" t < 2 -> italicStep t = t.
Proof.
  intros H.
  now apply (span_step_id (lit "*") _ (lit "*") Italic _ expand_Italic t "*").
Qed.

Lemma italicStep2_id t : occurrences "_" t < 2 -> italicStep2 t = t.
Proof.
  intros H.
  now apply (span_step_id (lit "_") _ (lit "_") Italic _ expand_Italic t "_").
Qed.

Lemma codeStep_id t : occurrences "`" t < 2 -> codeStep t = t.
Proof.
  intros H.
  now apply (span_step_id (lit "`") _ (lit "`") Cyan _ expand_Cyan t "`").
Qed.

(** A line whose beginning opens no block construct is rendered by the
    inline transformation alone. *)
Lemma renderLine_plain c0 tl :
  ~ In c0 (lit "#-") -> is_digit c0 = false ->
  HasPrefix (c0 :: tl) (lit "```") = false ->
  HasPrefix (c0 :: tl) (lit "* ") = false ->
  renderLine (c0 :: tl) = renderInlineFormatting (c0 :: tl).
Proof.
  intros Hc0 Hdigit Hfence Hstar.
  destruct (renderLine_cases (c0 :: tl))
    as [(style & p & t & Hin & E & _)
       |[(t & E & _)
        |[(p & t & r & Hp & E & _)
         |[(ds & body & tail & Hne & Hds & E & _)
          |[_ H]]]]]; [exfalso..|exact H].
  - simpl in Hin. destruct Hin as [E'|[E'|[E'|[]]]]; inv E';
      inv E; apply Hc0; simpl; tauto.
  - rewrite E, HasPrefix_app in Hfence. discriminate.
  - destruct Hp as [-> | ->].
    + inv E. apply Hc0; simpl; tauto.
    + rewrite E, HasPrefix_app in Hstar. discriminate.
  - destruct ds as [|d ds]; [contradiction|]. inv E.
    simpl in Hds. rewrite Hdigit in Hds. discriminate.
Qed.

Lemma RenderMarkdown_one_line line :
  ~ In nl line -> RenderMarkdown line = renderLine line.
Proof.
  intros H. rewrite RenderMarkdown_lines, Split_free by assumption.
  reflexivity.
Qed.

Ltac occ_tac Hs Hu Hb :=
  rewrite ?occurrences_app, ?Hs, ?Hu, ?Hb; vm_compute; lia.

Ltac no_bracket Hbr :=
  let H := fresh "H" in
  rewrite ?in_app_iff; intros H;
  repeat (destruct H as [H|H]);
  first [discriminate H | exact (Hbr H) | contradiction].

Lemma boldStep_whole t :
  ~ In "*" t -> ~ In nl t -> boldStep (lit "**" ++ t ++ lit "**") = Bold ++ t ++ Reset.
Proof.
  intros Hd Hnl.
  apply (span_step_whole "*" ["*"] (CNot ["*"; nl]) "*" ["*"] Bold _ t
           expand_Bold); [now apply forallb_CNot|assumption].
Qed.

Lemma boldStep2_whole t :
  ~ In "_" t -> ~ In nl t -> boldStep2 (lit "__" ++ t ++ lit "__") = Bold ++ t ++ Reset.
Proof.
  intros Hd Hnl.
  apply (span_step_whole "_" ["_"] (CNot ["_"; nl]) "_" ["_"] Bold _ t
           expand_Bold); [now apply forallb_CNot|assumption].
Qed.

Lemma italicStep_whole t :
  ~ In "*" t -> ~ In nl t -> italicStep (lit "*" ++ t ++ lit "*") = Italic ++ t ++ Reset.
Proof.
  intros Hd Hnl.
  apply (span_step_whole "*" [] (CNot ["*"; nl]) "*" [] Italic _ t
           expand_Italic); [now apply forallb_CNot|assumption].
Qed.

Lemma italicStep2_whole t :
  ~ In "_" t -> ~ In nl t -> italicStep2 (lit "_" ++ t ++ lit "_") = Italic ++ t ++ Reset.
Proof.
  intros Hd Hnl.
  apply (span_step_whole "_" [] (CNot ["_"; nl]) "_" [] Italic _ t
           expand_Italic); [now apply forallb_CNot|assumption].
Qed.

Lemma codeStep_whole t :
  ~ In "`" t -> ~ In nl t -> codeStep (lit "`" ++ t ++ lit "`") = Cyan ++ t ++ Reset.
Proof.
  intros Hd Hnl.
  apply (span_step_whole "`" [] (CNot ["`"; nl]) "`" [] Cyan _ t
           expand_Cyan); [now apply forallb_CNot|assumption].
Qed.

Lemma inline_single_span delim re style t :
  In (delim, re, style) spanTable ->
  free_of (nl :: lit "*_`]") t ->
  renderInlineFormatting (delim ++ t ++ delim) = style ++ t ++ Reset.
Proof.
  intros Hin Hfree.
  assert (Hnl : ~ In nl t) by (apply Hfree; simpl; tauto).
  assert (Hs' : ~ In "*" t) by (apply Hfree; simpl; tauto).
  assert (Hu' : ~ In "_" t) by (apply Hfree; simpl; tauto).
  assert (Hb' : ~ In "`" t) by (apply Hfree; simpl; tauto).
  assert (Hbr : ~ In "]" t) by (apply Hfree; simpl; tauto).
  pose proof (proj1 (occurrences_zero _ _) Hs') as Hs.
  pose proof (proj1 (occurrences_zero _ _) Hu') as Hu.
  pose proof (proj1 (occurrences_zero _ _) Hb') as Hb.
  rewrite inline_steps. unfold spanTable, In in Hin.
  destruct Hin as [E|[E|[E|[E|[E|[]]]]]]; injection E as <- <- <-;
    try change ["*"; "*"] with (lit "**");
    try change ["_"; "_"] with (lit "__");
    try change ["*"] with (lit "*");
    try change ["_"] with (lit "_");
    try change ["`"] with (lit "`").
  - rewrite (boldStep_whole t) by assumption.
    rewrite boldStep2_id by occ_tac Hs Hu Hb.
    rewrite italicStep_id by occ_tac Hs Hu Hb.
    rewrite italicStep2_id by occ_tac Hs Hu Hb.
    rewrite codeStep_id by occ_tac Hs Hu Hb.
    apply (link_step_id _ "]"); [simpl; tauto|no_bracket Hbr].
  - rewrite boldStep_id by occ_tac Hs Hu Hb.
    rewrite (boldStep2_whole t) by assumption.
    rewrite italicStep_id by occ_tac Hs Hu Hb.
    rewrite italicStep2_id by occ_tac Hs Hu Hb.
    rewrite codeStep_id by occ_tac Hs Hu Hb.
    apply (link_step_id _ "]"); [simpl; tauto|no_bracket Hbr].
  - rewrite boldStep_id by occ_tac Hs Hu Hb.
    rewrite boldStep2_id by occ_tac Hs Hu Hb.
    rewrite (italicStep_whole t) by assumption.
    rewrite italicStep2_id by occ_tac Hs Hu Hb.
    rewrite codeStep_id by occ_tac Hs Hu Hb.
    apply (link_step_id _ "]"); [simpl; tauto|no_bracket Hbr].
  - rewrite boldStep_id by occ_tac Hs Hu Hb.
    rewrite boldStep2_id by occ_tac Hs Hu Hb.
    rewrite italicStep_id by occ_tac Hs Hu Hb.
    rewrite (italicStep2_whole t) by assumption.
    rewrite codeStep_id by occ_tac Hs Hu Hb.
    apply (link_step_id _ "]"); [simpl; tauto|no_bracket Hbr].
  - rewrite boldStep_id by occ_tac Hs Hu Hb.
    rewrite boldStep2_id by occ_tac Hs Hu Hb.
    rewrite italicStep_id by occ_tac Hs Hu Hb.
    rewrite italicStep2_id by occ_tac Hs Hu Hb.
    rewrite (codeStep_whole t) by assumption.
    apply (link_step_id _ "]"); [simpl; tauto|no_bracket Hbr].
Qed.

Lemma inline_single_link label target :
  free_of (nl :: lit "*_`]") label ->
  free_of (nl :: lit "*_`)") target ->
  renderInlineFormatting (lit "[" ++ label ++ lit "](" ++ target ++ lit ")")
  = Blue ++ Underline ++ label ++ Reset.
Proof.
  intros Hl Ht.
  assert (Hs : occurrences "*" label = 0)
    by (apply occurrences_zero, Hl; simpl; tauto).
  assert (Hu : occurrences "_" label = 0)
    by (apply occurrences_zero, Hl; simpl; tauto).
  assert (Hb : occurrences "`" label = 0)
    by (apply occurrences_zero, Hl; simpl; tauto).
  assert (Hs2 : occurrences "*" target = 0)
    by (apply occurrences_zero, Ht; simpl; tauto).
  assert (Hu2 : occurrences "_" target = 0)
    by (apply occurrences_zero, Ht; simpl; tauto).
  assert (Hb2 : occurrences "`" target = 0)
    by (apply occurrences_zero, Ht; simpl; tauto).
  rewrite inline_steps.
  rewrite boldStep_id
    by (rewrite ?occurrences_app, ?Hs, ?Hs2; vm_compute; lia).
  rewrite boldStep2_id
    by (rewrite ?occurrences_app, ?Hu, ?Hu2; vm_compute; lia).
  rewrite italicStep_id
    by (rewrite ?occurrences_app, ?Hs, ?Hs2; vm_compute; lia).
  rewrite italicStep2_id
    by (rewrite ?occurrences_app, ?Hu, ?Hu2; vm_compute; lia).
  rewrite codeStep_id
    by (rewrite ?occurrences_app, ?Hb, ?Hb2; vm_compute; lia).
  assert (Hl' : free_of ["]"; nl] label)
    by (intros c Hc; apply Hl; simpl in *; tauto).
  assert (Ht' : free_of [")"; nl] target)
    by (intros c Hc; apply Ht; simpl in *; tauto).
  pose proof (link_step_law [] label target [] (fun H => H) Hl' Ht') as H.
  rewrite (app_nil_r (lit ")")) in H.
  change (linkStep []) with (@nil ascii) in H.
  rewrite app_nil_r, !app_nil_l, <- !app_assoc in H.
  exact H.
Qed.

End SingleConstruct.

(** X4.  A line that is one span (a pair of bold, italic or code
    delimiters around a text without newline, asterisk, underscore,
    backtick or closing bracket) and that is not a bullet item is rendered
    as the style of the span, the text and Reset. *)
Theorem single_span_renders (delim : bytes) (re : regex) (style t : bytes) :
  In (delim, re, style) spanTable ->
  free_of (nl :: lit "*_`]") t ->
  HasPrefix (delim ++ t ++ delim) (lit "* ") = false ->
  RenderMarkdown (delim ++ t ++ delim) = style ++ t ++ Reset.
Proof.
  intros Hin Hfree Hbullet.
  rewrite <- (inline_single_span delim re style t Hin Hfree).
  assert (Hnl : ~ In nl t) by (apply Hfree; simpl; tauto).
  assert (Hb : ~ In "`" t) by (apply Hfree; simpl; tauto).
  unfold spanTable, In in Hin.
  destruct Hin as [E|[E|[E|[E|[E|[]]]]]]; injection E as <- <- <-;
    (rewrite RenderMarkdown_one_line;
     [|rewrite !in_app_iff; intros [H|[H|H]];
       [revert H; not_in|contradiction|revert H; not_in]]);
    cbn [app] in *;
    match goal with
    | |- renderLine (?c0 :: ?tl) = _ => apply (renderLine_plain c0 tl)
    end; try not_in; try reflexivity; try exact Hbullet.
  destruct t as [|x t]; [reflexivity|].
  simpl. destruct (Ascii.eqb x "`") eqn:E; [|reflexivity].
  apply Ascii.eqb_eq in E. subst x. exfalso. apply Hb. now left.
Qed.

Lemma single_span_renders_witness :
  In (lit "*", italicRe, Italic) spanTable
  /\ free_of (nl :: lit "*_`]") (lit "very (really) so")
  /\ HasPrefix (lit "*" ++ lit "very (really) so" ++ lit "*") (lit "* ") = false
  /\ RenderMarkdown (lit "*" ++ lit "very (really) so" ++ lit "*")
     = Italic ++ lit "very (really) so" ++ Reset.
Proof.
  split; [simpl; tauto|]. split; [free_of_tac|]. split; [reflexivity|].
  apply (single_span_renders (lit "*") italicRe Italic (lit "very (really) so"));
    [simpl; tauto|free_of_tac|reflexivity].
Defined.

(** X5.  A line that is one link, with a label and a target free of
    newline, asterisk, underscore and backtick, the label without closing
    bracket and the target without closing parenthesis, is rendered as
    Blue + Underline + label + Reset: the target is not shown. *)
Theorem single_link_renders (label target : bytes) :
  free_of (nl :: lit "*_`]") label ->
  free_of (nl :: lit "*_`)") target ->
  RenderMarkdown (lit "[" ++ label ++ lit "](" ++ target ++ lit ")")
  = Blue ++ Underline ++ label ++ Reset.
Proof.
  intros Hl Ht.
  rewrite <- (inline_single_link label target Hl Ht).
  rewrite RenderMarkdown_one_line.
  - apply (renderLine_plain "["); try not_in; reflexivity.
  - rewrite !in_app_iff. intros [H|[H|[H|[H|H]]]];
      try (revert H; not_in).
    + apply (Hl nl); [now left|assumption].
    + apply (Ht nl); [now left|assumption].
Qed.

Lemma single_link_renders_witness :
  free_of (nl :: lit "*_`]") (lit "the docs")
  /\ free_of (nl :: lit "*_`)") (lit "http://x/y?z=1")
  /\ RenderMarkdown (lit "[" ++ lit "the docs" ++ lit "]("
                     ++ lit "http://x/y?z=1" ++ lit ")")
     = Blue ++ Underline ++ lit "the docs" ++ Reset.
Proof.
  split; [free_of_tac|]. split; [free_of_tac|].
  apply (single_link_renders (lit "the docs") (lit "http://x/y?z=1"));
    free_of_tac.
Defined.

(** ** A span in its surroundings *)

Section SpanInContext.

Lemma boldStep_law pre run rest :
  ~ In "*" pre -> ~ In "*" run -> ~ In nl run ->
  boldStep (pre ++ lit "**" ++ run ++ lit "**" ++ rest)
  = pre ++ Bold ++ run ++ Reset ++ boldStep rest.
Proof.
  intros Hpre Hd Hnl.
  apply (span_step_law "*" ["*"] (CNot ["*"; nl]) "*" ["*"] Bold _ pre run
           rest expand_Bold);
    [assumption|now apply forallb_CNot|assumption].
Qed.

Lemma boldStep2_law pre run rest :
  ~ In "_" pre -> ~ In "_" run -> ~ In nl run ->
  boldStep2 (pre ++ lit "__" ++ run ++ lit "__" ++ rest)
  = pre ++ Bold ++ run ++ Reset ++ boldStep2 rest.
Proof.
  intros Hpre Hd Hnl.
  apply (span_step_law "_" ["_"] (CNot ["_"; nl]) "_" ["_"] Bold _ pre run
           rest expand_Bold);
    [assumption|now apply forallb_CNot|assumption].
Qed.

Lemma italicStep_law pre run rest :
  ~ In "*" pre -> ~ In "*" run -> ~ In nl run ->
  italicStep (pre ++ lit "*" ++ run ++ lit "*" ++ rest)
  = pre ++ Italic ++ run ++ Reset ++ italicStep rest.
Proof.
  intros Hpre Hd Hnl.
  apply (span_step_law "*" [] (CNot ["*"; nl]) "*" [] Italic _ pre run
           rest expand_Italic);
    [assumption|now apply forallb_CNot|assumption].
Qed.

Lemma italicStep2_law pre run rest :
  ~ In "_" pre -> ~ In "_" run -> ~ In nl run ->
  italicStep2 (pre ++ lit "_" ++ run ++ lit "_" ++ rest)
  = pre ++ Italic ++ run ++ Reset ++ italicStep2 rest.
Proof.
  intros Hpre Hd Hnl.
  apply (span_step_law "_" [] (CNot ["_"; nl]) "_" [] Italic _ pre run
           rest expand_Italic);
    [assumption|now apply forallb_CNot|assumption].
Qed.

Lemma codeStep_law pre run rest :
  ~ In "`" pre -> ~ In "`" run -> ~ In nl run ->
  codeStep (pre ++ lit "`" ++ run ++ lit "`" ++ rest)
  = pre ++ Cyan ++ run ++ Reset ++ codeStep rest.
Proof.
  intros Hpre Hd Hnl.
  apply (span_step_law "`" [] (CNot ["`"; nl]) "`" [] Cyan _ pre run
           rest expand_Cyan);
    [assumption|now apply forallb_CNot|assumption].
Qed.




(** A sum of occurrences in which the text before and the run count for
    nothing and the text behind for at most one. *)
Ltac occ_behind rest Hs Hu Hb :=
  rewrite ?occurrences_app;
  repeat match goal with
         | E : occurrences _ _ = 0 |- _ => rewrite E; clear E
         end;
  generalize Hs Hu Hb;
  generalize (occurrences "*" rest), (occurrences "_" rest),
    (occurrences "`" rest);
  intros; vm_compute; lia.

(** The link pass finds no byte [d] to work with. *)
Ltac no_link d Hd Hfree :=
  apply (link_step_id _ d);
  [simpl in Hd |- *; tauto
  |let H := fresh "H" in
   intros H; apply Hfree; rewrite !in_app_iff in *;
   destruct H as [H|[H|[H|[H|H]]]]; auto;
   exfalso; simpl in Hd; destruct Hd as [<-|[<-|[<-|[]]]];
   revert H; not_in].

(** A span between a text without delimiters and a text in which no
    delimiter can pair up: the span is replaced and the rest copied. *)
Lemma inline_span_behind delim re style pre run rest d :
  In (delim, re, style) spanTable ->
  free_of (lit "*_`") pre ->
  free_of (nl :: lit "*_`") run ->
  occurrences "*" rest <= 1 ->
  occurrences "_" rest <= 1 ->
  occurrences "`" rest <= 1 ->
  In d (lit "]()") -> ~ In d (pre ++ run ++ rest) ->
  renderInlineFormatting (pre ++ delim ++ run ++ delim ++ rest)
  = pre ++ style ++ run ++ Reset ++ rest.
Proof.
  intros Hin Hpre Hrun Hs Hu Hb Hd Hfree.
  assert (Hnl : ~ In nl run) by (apply Hrun; simpl; tauto).
  assert (Hps' : ~ In "*" pre) by (apply Hpre; simpl; tauto).
  assert (Hpu' : ~ In "_" pre) by (apply Hpre; simpl; tauto).
  assert (Hpb' : ~ In "`" pre) by (apply Hpre; simpl; tauto).
  assert (Hrs' : ~ In "*" run) by (apply Hrun; simpl; tauto).
  assert (Hru' : ~ In "_" run) by (apply Hrun; simpl; tauto).
  assert (Hrb' : ~ In "`" run) by (apply Hrun; simpl; tauto).
  pose proof (proj1 (occurrences_zero _ _) Hps') as Hps.
  pose proof (proj1 (occurrences_zero _ _) Hpu') as Hpu.
  pose proof (proj1 (occurrences_zero _ _) Hpb') as Hpb.
  pose proof (proj1 (occurrences_zero _ _) Hrs') as Hrs.
  pose proof (proj1 (occurrences_zero _ _) Hru') as Hru.
  pose proof (proj1 (occurrences_zero _ _) Hrb') as Hrb.
  rewrite inline_steps. unfold spanTable, In in Hin.
  destruct Hin as [E|[E|[E|[E|[E|[]]]]]]; injection E as <- <- <-;
    try change ["*"; "*"] with (lit "**");
    try change ["_"; "_"] with (lit "__");
    try change ["*"] with (lit "*");
    try change ["_"] with (lit "_");
    try change ["`"] with (lit "`").
  - rewrite (boldStep_law pre run rest) by assumption.
    rewrite (boldStep_id rest) by lia.
    rewrite boldStep2_id by occ_behind rest Hs Hu Hb.
    rewrite italicStep_id by occ_behind rest Hs Hu Hb.
    rewrite italicStep2_id by occ_behind rest Hs Hu Hb.
    rewrite codeStep_id by occ_behind rest Hs Hu Hb.
    no_link d Hd Hfree.
  - rewrite boldStep_id by occ_behind rest Hs Hu Hb.
    rewrite (boldStep2_law pre run rest) by assumption.
    rewrite (boldStep2_id rest) by lia.
    rewrite italicStep_id by occ_behind rest Hs Hu Hb.
    rewrite italicStep2_id by occ_behind rest Hs Hu Hb.
    rewrite codeStep_id by occ_behind rest Hs Hu Hb.
    no_link d Hd Hfree.
  - rewrite boldStep_id by occ_behind rest Hs Hu Hb.
    rewrite boldStep2_id by occ_behind rest Hs Hu Hb.
    rewrite (italicStep_law pre run rest) by assumption.
    rewrite (italicStep_id rest) by lia.
    rewrite italicStep2_id by occ_behind rest Hs Hu Hb.
    rewrite codeStep_id by occ_behind rest Hs Hu Hb.
    no_link d Hd Hfree.
  - rewrite boldStep_id by occ_behind rest Hs Hu Hb.
    rewrite boldStep2_id by occ_behind rest Hs Hu Hb.
    rewrite italicStep_id by occ_behind rest Hs Hu Hb.
    rewrite (italicStep2_law pre run rest) by assumption.
    rewrite (italicStep2_id rest) by lia.
    rewrite codeStep_id by occ_behind rest Hs Hu Hb.
    no_link d Hd Hfree.
  - rewrite boldStep_id by occ_behind rest Hs Hu Hb.
    rewrite boldStep2_id by occ_behind rest Hs Hu Hb.
    rewrite italicStep_id by occ_behind rest Hs Hu Hb.
    rewrite italicStep2_id by occ_behind rest Hs Hu Hb.
    rewrite (codeStep_law pre run rest) by assumption.
    rewrite (codeStep_id rest) by lia.
    no_link d Hd Hfree.
Qed.

End SpanInContext.

(** C5, as the code has it.  The inline transformation replaces a span
    (a pair of bold, italic or code delimiters around a run) whether or not
    the run is empty.  When the text before the span and the text behind it
    hold no asterisk, underscore, backtick or closing bracket, and the run
    holds none of these and no newline, the text before, the span and the
    text behind are rendered as the text before, the style, the run, Reset
    and the text behind; for the empty run this is the text before, the
    style, Reset and the text behind. *)
Theorem empty_spans_are_replaced (delim : bytes) (re : regex)
  (style pre run post : bytes) :
  In (delim, re, style) spanTable ->
  free_of (lit "*_`]") pre ->
  free_of (nl :: lit "*_`]") run ->
  free_of (lit "*_`]") post ->
  renderInlineFormatting (pre ++ delim ++ run ++ delim ++ post)
  = pre ++ style ++ run ++ Reset ++ post
  /\ renderInlineFormatting (pre ++ delim ++ delim ++ post)
     = pre ++ style ++ Reset ++ post.
Proof.
  intros Hin Hpre Hrun Hpost.
  assert (Hpre' : free_of (lit "*_`") pre)
    by (intros c Hc; apply Hpre; simpl in *; tauto).
  assert (Hz : forall c, In c (lit "*_`") -> occurrences c post <= 1).
  { intros c Hc.
    assert (E : occurrences c post = 0)
      by (apply occurrences_zero, Hpost; simpl in *; tauto).
    rewrite E. lia. }
  split.
  - apply (inline_span_behind delim re style pre run post "]"); auto.
    + intros c Hc. apply Hrun. simpl in *. tauto.
    + apply Hz; simpl; tauto.
    + apply Hz; simpl; tauto.
    + apply Hz; simpl; tauto.
    + simpl; tauto.
    + rewrite !in_app_iff. intros [H|[H|H]]; revert H.
      * apply Hpre; simpl; tauto.
      * apply Hrun; simpl; tauto.
      * apply Hpost; simpl; tauto.
  - apply (inline_span_behind delim re style pre [] post "]"); auto.
    + intros c _ [].
    + apply Hz; simpl; tauto.
    + apply Hz; simpl; tauto.
    + apply Hz; simpl; tauto.
    + simpl; tauto.
    + rewrite !in_app_iff. intros [H|[[]|H]]; revert H.
      * apply Hpre; simpl; tauto.
      * apply Hpost; simpl; tauto.
Qed.

Lemma empty_spans_are_replaced_witness :
  In (lit "**", boldRe, Bold) spanTable
  /\ free_of (lit "*_`]") (lit "a ")
  /\ free_of (nl :: lit "*_`]") []
  /\ free_of (lit "*_`]") (lit " b")
  /\ renderInlineFormatting (lit "a " ++ lit "**" ++ [] ++ lit "**" ++ lit " b")
     = lit "a " ++ Bold ++ [] ++ Reset ++ lit " b"
  /\ renderInlineFormatting (lit "a " ++ lit "**" ++ lit "**" ++ lit " b")
     = lit "a " ++ Bold ++ Reset ++ lit " b".
Proof.
  split; [simpl; tauto|]. split; [free_of_tac|]. split; [intros c _ []|].
  split; [free_of_tac|].
  apply (empty_spans_are_replaced (lit "**") boldRe Bold (lit "a ") []
           (lit " b"));
    [simpl; tauto|free_of_tac|intros c _ []|free_of_tac].
Defined.

(** C5 as stated fails: four asterisks are rendered as Bold + Reset and two
    asterisks as Italic + Reset; neither stays literal. *)
Lemma empty_span_not_literal :
  renderInlineFormatting (lit "****") = Bold ++ Reset
  /\ renderInlineFormatting (lit "****") <> lit "****"
  /\ renderInlineFormatting (lit "**") = Italic ++ Reset
  /\ renderInlineFormatting (lit "**") <> lit "**".
Proof.
  repeat split; try (vm_compute; reflexivity);
    intros H; vm_compute in H; discriminate H.
Qed.




(** ** How long the output can get *)

Section Bounds.

Lemma total_cost_app s t : total_cost (s ++ t) = total_cost s + total_cost t.
Proof. unfold total_cost. now rewrite map_app, list_sum_app. Qed.

Lemma cost_pos c : 1 <= cost c.
Proof.
  unfold cost.
  destruct (Ascii.eqb c "*"), (Ascii.eqb c "_"), (Ascii.eqb c "`"),
    (Ascii.eqb c "]"); lia.
Qed.

Lemma length_le_total_cost s : length s <= total_cost s.
Proof.
  induction s as [|c s IH]; [simpl; lia|].
  change (total_cost (c :: s)) with (cost c + total_cost s).
  pose proof (cost_pos c). simpl length. lia.
Qed.

Lemma total_cost_occurrences s :
  total_cost s
  = length s + 3 * occurrences "*" s + 3 * occurrences "_" s
    + 4 * occurrences "`" s + 9 * occurrences "]" s.
Proof.
  induction s as [|c s IH]; [reflexivity|].
  change (total_cost (c :: s)) with (cost c + total_cost s).
  rewrite IH. unfold occurrences, cost. simpl.
  destruct (ascii_dec c "*") as [->|N1]; [simpl; lia|].
  destruct (ascii_dec c "_") as [->|N2]; [simpl; lia|].
  destruct (ascii_dec c "`") as [->|N3]; [simpl; lia|].
  destruct (ascii_dec c "]") as [->|N4]; [simpl; lia|].
  apply Ascii.eqb_neq in N1, N2, N3, N4. rewrite N1, N2, N3, N4. lia.
Qed.

Lemma Rewrites_cost shape style s out :
  (forall m cap, shape m cap ->
     total_cost (style ++ cap ++ Reset) <= total_cost m) ->
  Rewrites shape style s out -> total_cost out <= total_cost s.
Proof.
  intros Hshape H. induction H.
  - lia.
  - change (total_cost (x :: out)) with (cost x + total_cost out).
    change (total_cost (x :: s)) with (cost x + total_cost s). lia.
  - apply Hshape in H. rewrite !total_cost_app in *. lia.
Qed.

Lemma span_step_cost o k c style repl s :
  (forall w g, expand repl [w; g] = style ++ g ++ Reset) ->
  total_cost style + total_cost Reset <= total_cost o + total_cost c ->
  total_cost (spanStep o k c repl s) <= total_cost s.
Proof.
  intros Hexp Hle.
  apply (Rewrites_cost (span_shape o k c) style); [|now apply span_step_sound].
  intros m cap [-> _]. rewrite !total_cost_app. lia.
Qed.

Lemma link_step_cost s : total_cost (linkStep s) <= total_cost s.
Proof.
  apply (Rewrites_cost link_shape (Blue ++ Underline)); [|apply link_step_sound].
  intros m cap (target & -> & _). rewrite !total_cost_app.
  change (total_cost Blue) with 5. change (total_cost Underline) with 4.
  change (total_cost Reset) with 4. change (total_cost (lit "[")) with 1.
  change (total_cost (lit "](")) with 11. change (total_cost (lit ")")) with 1.
  lia.
Qed.

Lemma inline_cost text :
  total_cost (renderInlineFormatting text) <= total_cost text.
Proof.
  rewrite inline_steps.
  etransitivity; [apply link_step_cost|].
  etransitivity;
    [apply (span_step_cost _ _ _ Cyan _ _ expand_Cyan); vm_compute; lia|].
  etransitivity;
    [apply (span_step_cost _ _ _ Italic _ _ expand_Italic); vm_compute; lia|].
  etransitivity;
    [apply (span_step_cost _ _ _ Italic _ _ expand_Italic); vm_compute; lia|].
  etransitivity;
    [apply (span_step_cost _ _ _ Bold _ _ expand_Bold); vm_compute; lia|].
  apply (span_step_cost _ _ _ Bold _ _ expand_Bold); vm_compute; lia.
Qed.

Lemma renderLine_cost line :
  length (renderLine line) <= 11 + total_cost line.
Proof.
  destruct (renderLine_cases line)
    as [(style & p & t & Hin & -> & ->)
       |[(t & -> & ->)
        |[(p & t & r & Hp & -> & Hr & ->)
         |[(ds & body & tail & _ & _ & -> & _ & _ & ->)
          |[_ ->]]]]].
  - pose proof (length_le_total_cost t).
    assert (Hsp : length style <= 9 /\ 2 <= total_cost p)
      by (simpl in Hin; destruct Hin as [E|[E|[E|[]]]]; inv E;
          split; vm_compute; lia).
    rewrite !length_app, !total_cost_app.
    change (length Reset) with 4. lia.
  - pose proof (length_le_total_cost (lit "```" ++ t)).
    rewrite !length_app in *. simpl length in *. lia.
  - pose proof (length_le_total_cost r).
    rewrite !length_app, !total_cost_app.
    assert (2 <= total_cost p)
      by (destruct Hp; subst; vm_compute; lia).
    assert (total_cost r <= total_cost t)
      by (destruct Hr as [->| ->]; [lia|rewrite total_cost_app; lia]).
    simpl length. lia.
  - pose proof (length_le_total_cost (ds ++ lit ". ")).
    pose proof (length_le_total_cost body).
    rewrite (app_assoc ds), !length_app, !total_cost_app in *.
    simpl length in *. lia.
  - pose proof (length_le_total_cost (renderInlineFormatting line)).
    pose proof (inline_cost line). lia.
Qed.

Lemma join_lines_cost (f : bytes -> bytes) ls :
  (forall l, length (f l) <= 11 + total_cost l) ->
  length (join_lines (map f ls))
  <= total_cost (join_lines ls) + 11 * length ls.
Proof.
  intros Hf. induction ls as [|l ls IH]; [simpl; lia|].
  destruct ls as [|l' ls].
  - simpl. pose proof (Hf l). lia.
  - change (join_lines (map f (l :: l' :: ls)))
      with (f l ++ nl :: join_lines (map f (l' :: ls))).
    change (join_lines (l :: l' :: ls)) with (l ++ nl :: join_lines (l' :: ls)).
    rewrite length_app, total_cost_app.
    change (length (nl :: join_lines (map f (l' :: ls))))
      with (S (length (join_lines (map f (l' :: ls))))).
    change (total_cost (nl :: join_lines (l' :: ls)))
      with (1 + total_cost (join_lines (l' :: ls))).
    change (length (l :: l' :: ls)) with (S (length (l' :: ls))).
    pose proof (Hf l). lia.
Qed.

Lemma Split_length s :
  length (Split s nl) = occurrences nl s + 1.
Proof.
  induction s as [|c s IH]; [reflexivity|].
  pose proof (Split_nonempty s nl) as Hne.
  unfold occurrences in *. simpl.
  destruct (ascii_dec c nl) as [->|N].
  - simpl. rewrite IH. lia.
  - apply Ascii.eqb_neq in N. rewrite N.
    destruct (Split s nl); [contradiction|]. simpl in *. lia.
Qed.

End Bounds.

(** X6.  The output is at most linearly longer than the input: every
    asterisk and underscore can add 3 bytes, every backtick 4, every
    closing bracket 9, and every line 11. *)
Theorem render_length_bound (markdown : bytes) :
  length (RenderMarkdown markdown)
  <= length markdown
     + 3 * occurrences "*" markdown + 3 * occurrences "_" markdown
     + 4 * occurrences "`" markdown + 9 * occurrences "]" markdown
     + 11 * (occurrences nl markdown + 1).
Proof.
  rewrite <- total_cost_occurrences, <- Split_length.
  rewrite RenderMarkdown_lines.
  rewrite <- (join_Split markdown) at 2.
  apply join_lines_cost. apply renderLine_cost.
Qed.

(** ** What the renderer adds and what it drops *)

Section Conservation.

Lemma Rewrites_occurrences_ge shape style c s out :
  (forall m cap, shape m cap -> occurrences c m <= occurrences c cap) ->
  Rewrites shape style s out -> occurrences c s <= occurrences c out.
Proof.
  intros Hshape H. induction H.
  - lia.
  - unfold occurrences in *. simpl. destruct (ascii_dec x c); lia.
  - apply Hshape in H. rewrite !occurrences_app. lia.
Qed.

Lemma span_step_occurrences_ge o k c style repl s d :
  (forall w g, expand repl [w; g] = style ++ g ++ Reset) ->
  ~ In d o -> ~ In d c ->
  occurrences d s <= occurrences d (spanStep o k c repl s).
Proof.
  intros Hexp Ho Hc.
  apply (Rewrites_occurrences_ge (span_shape o k c) style);
    [|now apply span_step_sound].
  intros m cap H. rewrite (span_occurrences d _ _ _ _ _ H).
  apply occurrences_zero in Ho, Hc. lia.
Qed.

Lemma not_code_byte c style :
  ~ In c (ESC :: lit "[0123456m") ->
  In style [Reset; Bold; Italic; Cyan; Blue ++ Underline; Yellow; Green;
            Magenta; Blue; Yellow ++ Bold; Blue ++ Bold; Magenta ++ Bold] ->
  occurrences c style = 0.
Proof.
  intros Hc Hin. apply occurrences_zero. intros H. apply Hc.
  simpl in Hin.
  repeat (destruct Hin as [<-|Hin]; [simpl in H |- *; tauto|]).
  contradiction.
Qed.

Lemma inline_occurrences_le text c :
  ~ In c (ESC :: lit "[0123456m") ->
  occurrences c (renderInlineFormatting text) <= occurrences c text.
Proof.
  intros Hc. rewrite inline_steps.
  assert (Hno : forall style,
             In style [Reset; Bold; Italic; Cyan; Blue ++ Underline] ->
             ~ In c style).
  { intros style Hs. apply occurrences_zero, not_code_byte; [assumption|].
    simpl in *. tauto. }
  etransitivity;
    [apply link_step_occurrences; apply Hno; simpl; tauto|].
  etransitivity;
    [apply (span_step_occurrences _ _ _ Cyan _ expand_Cyan);
     apply Hno; simpl; tauto|].
  etransitivity;
    [apply (span_step_occurrences _ _ _ Italic _ expand_Italic);
     apply Hno; simpl; tauto|].
  etransitivity;
    [apply (span_step_occurrences _ _ _ Italic _ expand_Italic);
     apply Hno; simpl; tauto|].
  etransitivity;
    [apply (span_step_occurrences _ _ _ Bold _ expand_Bold);
     apply Hno; simpl; tauto|].
  apply (span_step_occurrences _ _ _ Bold _ expand_Bold);
    apply Hno; simpl; tauto.
Qed.

Lemma inline_occurrences_ge text c :
  ~ In "]" text -> ~ In c (lit "*_`") ->
  occurrences c text <= occurrences c (renderInlineFormatting text).
Proof.
  intros Hbr Hc. rewrite inline_steps.
  rewrite (link_step_id _ "]").
  - etransitivity;
      [|apply (span_step_occurrences_ge _ _ _ Cyan _ _ _ expand_Cyan);
        intros H; apply Hc; simpl in *; tauto].
    etransitivity;
      [|apply (span_step_occurrences_ge _ _ _ Italic _ _ _ expand_Italic);
        intros H; apply Hc; simpl in *; tauto].
    etransitivity;
      [|apply (span_step_occurrences_ge _ _ _ Italic _ _ _ expand_Italic);
        intros H; apply Hc; simpl in *; tauto].
    etransitivity;
      [|apply (span_step_occurrences_ge _ _ _ Bold _ _ _ expand_Bold);
        intros H; apply Hc; simpl in *; tauto].
    apply (span_step_occurrences_ge _ _ _ Bold _ _ _ expand_Bold);
      intros H; apply Hc; simpl in *; tauto.
  - simpl. tauto.
  - intros H. apply spans_In in H as [H|H]; [contradiction|].
    simpl in H. repeat (destruct H as [H|H]; [discriminate|]). contradiction.
Qed.

Lemma renderLine_occurrences_le line c :
  ~ In c (ESC :: lit "[0123456m" ++ bullet) ->
  occurrences c (renderLine line) <= occurrences c line.
Proof.
  intros Hc.
  assert (Hcode : ~ In c (ESC :: lit "[0123456m"))
    by (intros H; apply Hc; simpl in *; tauto).
  assert (Hbullet : occurrences c bullet = 0)
    by (apply occurrences_zero; intros H; apply Hc; simpl in *; tauto).
  assert (Hz : forall style,
             In style [Reset; Bold; Italic; Cyan; Blue ++ Underline; Yellow;
                       Green; Magenta; Blue; Yellow ++ Bold; Blue ++ Bold;
                       Magenta ++ Bold] ->
             occurrences c style = 0)
    by (intros style; now apply not_code_byte).
  destruct (renderLine_cases line)
    as [(style & p & t & Hin & -> & ->)
       |[(t & -> & ->)
        |[(p & t & r & Hp & -> & Hr & ->)
         |[(ds & body & tail & _ & _ & -> & _ & _ & ->)
          |[_ ->]]]]].
  - rewrite !occurrences_app.
    rewrite (Hz style), (Hz Reset); [lia|simpl; tauto|].
    simpl in Hin. destruct Hin as [E|[E|[E|[]]]]; inv E; simpl; tauto.
  - rewrite !occurrences_app.
    rewrite (Hz Cyan), (Hz Reset); [lia|simpl; tauto|simpl; tauto].
  - rewrite !occurrences_app.
    rewrite (Hz Green), (Hz Reset), Hbullet; [|simpl; tauto|simpl; tauto].
    destruct Hr as [->| ->]; rewrite ?occurrences_app; lia.
  - rewrite !occurrences_app.
    rewrite (Hz Yellow), (Hz Reset); [lia|simpl; tauto|simpl; tauto].
  - now apply inline_occurrences_le.
Qed.

Lemma renderLine_occurrences_ge line c :
  ~ In nl line -> ~ In "]" line -> ~ In c (lit "*_`#- ") ->
  occurrences c line <= occurrences c (renderLine line).
Proof.
  intros Hnl Hbr Hc.
  destruct (renderLine_cases line)
    as [(style & p & t & Hin & -> & ->)
       |[(t & -> & ->)
        |[(p & t & r & Hp & -> & Hr & ->)
         |[(ds & body & tail & _ & _ & -> & _ & Htail & ->)
          |[_ ->]]]]].
  - rewrite !occurrences_app.
    assert (occurrences c p = 0); [|lia].
    apply occurrences_zero. intros H. apply Hc.
    simpl in Hin. destruct Hin as [E|[E|[E|[]]]]; inv E;
      simpl in *; tauto.
  - rewrite !occurrences_app. lia.
  - rewrite !occurrences_app.
    assert (Hp0 : occurrences c p = 0).
    { apply occurrences_zero. intros H. apply Hc.
      destruct Hp; subst; simpl in *; tauto. }
    destruct Hr as [->| ->]; [lia|].
    rewrite occurrences_app.
    assert (Hs0 : occurrences c (lit "* ") = 0); [|lia].
    apply occurrences_zero. intros H. apply Hc. simpl in *. tauto.
  - destruct Htail as [->|[t ->]].
    + rewrite app_nil_r, !occurrences_app. lia.
    + exfalso. apply Hnl. rewrite !in_app_iff. right. right. right. now left.
  - apply inline_occurrences_ge; [assumption|].
    intros H. apply Hc. simpl in *. tauto.
Qed.

Lemma join_lines_occurrences (f g : bytes -> bytes) c ls :
  (forall l, In l ls -> occurrences c (f l) <= occurrences c (g l)) ->
  occurrences c (join_lines (map f ls)) <= occurrences c (join_lines (map g ls)).
Proof.
  induction ls as [|l ls IH]; intros H; [simpl; lia|].
  assert (Hl : occurrences c (f l) <= occurrences c (g l))
    by (apply H; now left).
  destruct ls as [|l' ls]; [exact Hl|].
  assert (IH' : occurrences c (join_lines (map f (l' :: ls)))
                <= occurrences c (join_lines (map g (l' :: ls))))
    by (apply IH; intros l0 Hl0; apply H; now right).
  change (join_lines (map f (l :: l' :: ls)))
    with (f l ++ nl :: join_lines (map f (l' :: ls))).
  change (join_lines (map g (l :: l' :: ls)))
    with (g l ++ nl :: join_lines (map g (l' :: ls))).
  rewrite !occurrences_app.
  change (nl :: join_lines (map f (l' :: ls)))
    with ([nl] ++ join_lines (map f (l' :: ls))).
  change (nl :: join_lines (map g (l' :: ls)))
    with ([nl] ++ join_lines (map g (l' :: ls))).
  rewrite !occurrences_app. lia.
Qed.

End Conservation.

(** X7.  The renderer invents no text: a byte that occurs in none of the
    codes and is not part of the bullet occurs in the output at most as
    often as in the input. *)
Theorem render_adds_only_codes (markdown : bytes) (c : ascii) :
  ~ In c (ESC :: lit "[0123456m" ++ bullet) ->
  occurrences c (RenderMarkdown markdown) <= occurrences c markdown.
Proof.
  intros Hc. rewrite RenderMarkdown_lines.
  rewrite <- (join_Split markdown) at 2.
  rewrite <- (map_id (Split markdown nl)) at 2.
  apply join_lines_occurrences. intros l _.
  now apply renderLine_occurrences_le.
Qed.

Lemma render_adds_only_codes_witness :
  ~ In "a" (ESC :: lit "[0123456m" ++ bullet)
  /\ occurrences "a" (RenderMarkdown (lit "# a *a* [a](a)"))
     <= occurrences "a" (lit "# a *a* [a](a)").
Proof.
  split; [not_in|].
  apply (render_adds_only_codes (lit "# a *a* [a](a)") "a"). not_in.
Defined.

(** X8.  Without links the renderer drops nothing but markers: when the
    input holds no closing bracket, a byte other than asterisk, underscore,
    backtick, hash, dash and space occurs in the output at least as often
    as in the input. *)
Theorem render_drops_only_markers (markdown : bytes) (c : ascii) :
  ~ In "]" markdown ->
  ~ In c (lit "*_`#- ") ->
  occurrences c markdown <= occurrences c (RenderMarkdown markdown).
Proof.
  intros Hbr Hc. rewrite RenderMarkdown_lines.
  rewrite <- (join_Split markdown) at 1.
  rewrite <- (map_id (Split markdown nl)) at 1.
  apply join_lines_occurrences. intros l Hl.
  apply renderLine_occurrences_ge; [| |assumption].
  - pose proof (Split_pieces_free markdown nl) as Hpieces.
    rewrite Forall_forall in Hpieces. now apply Hpieces.
  - intros H. apply Hbr. now apply (Split_In markdown nl l).
Qed.

Lemma render_drops_only_markers_witness :
  ~ In "]" (lit "## a_b_ `b`" ++ nl :: lit "- * b")
  /\ ~ In "b" (lit "*_`#- ")
  /\ occurrences "b" (lit "## a_b_ `b`" ++ nl :: lit "- * b")
     <= occurrences "b"
          (RenderMarkdown (lit "## a_b_ `b`" ++ nl :: lit "- * b")).
Proof.
  split; [not_in|]. split; [not_in|].
  apply (render_drops_only_markers (lit "## a_b_ `b`" ++ nl :: lit "- * b") "b");
    not_in.
Defined.

(** * Provider selection and shell detection *)

Section Providers.

Variable Getenv : bytes -> bytes.

Lemma nonempty_true s : nonempty s = true <-> s <> [].
Proof. destruct s; simpl; split; intros H; congruence. Qed.

Lemma nonempty_false s : nonempty s = false <-> s = [].
Proof. destruct s; simpl; split; intros H; congruence. Qed.

(** X9.  The provider chosen is the first of Claude, OpenAI and Ollama
    whose variable is set to a non-empty value, and the credential returned
    with it is that value: the function answers a provider and a key
    without error exactly when the key is non-empty, is the value of the
    provider's variable, and the variables of the providers preferred to
    it are empty or unset. *)
Theorem determineAPIProvider_priority (provider : APIProvider) (key : bytes) :
  determineAPIProvider Getenv = (provider, key, None)
  <-> key <> []
      /\ key = Getenv (credentialVariable provider)
      /\ (forall q, preference q < preference provider ->
                    Getenv (credentialVariable q) = []).
Proof.
  unfold determineAPIProvider.
  destruct (nonempty (Getenv (lit "ANTHROPIC_API_KEY"))) eqn:E1;
    [|destruct (nonempty (Getenv (lit "OPENAI_API_KEY"))) eqn:E2;
      [|destruct (nonempty (Getenv (lit "OLLAMA_MODEL"))) eqn:E3]];
    try apply nonempty_true in E1; try apply nonempty_false in E1;
    try apply nonempty_true in E2; try apply nonempty_false in E2;
    try apply nonempty_true in E3; try apply nonempty_false in E3;
    (split;
     [intros H; inv H; repeat split; auto;
      intros [] Hq; simpl in Hq; try lia; assumption
     |intros (Hne & -> & Hpref)]).
  - destruct provider; [reflexivity|exfalso..];
      apply E1; apply (Hpref Claude); simpl; lia.
  - destruct provider; simpl in *; [contradiction|reflexivity|exfalso].
    apply E2. apply (Hpref OpenAI). simpl; lia.
  - destruct provider; simpl in *; [contradiction|contradiction|reflexivity].
  - destruct provider; simpl in *; contradiction.
Qed.

Lemma determineAPIProvider_error_intro :
  (forall p, Getenv (credentialVariable p) = []) ->
  determineAPIProvider Getenv
  = (Claude, [], Some (lit "no API key or Ollama model found")).
Proof.
  intros H. unfold determineAPIProvider.
  rewrite (H Claude : Getenv (lit "ANTHROPIC_API_KEY") = []).
  rewrite (H OpenAI : Getenv (lit "OPENAI_API_KEY") = []).
  now rewrite (H Ollama : Getenv (lit "OLLAMA_MODEL") = []).
Qed.

(** X10.  The function fails exactly when none of the three variables is
    set to a non-empty value; the failure carries the provider Claude, an
    empty key and the message that no key or model was found. *)
Theorem determineAPIProvider_error :
  (forall p, Getenv (credentialVariable p) = [])
  <-> determineAPIProvider Getenv
      = (Claude, [], Some (lit "no API key or Ollama model found")).
Proof.
  split; [apply determineAPIProvider_error_intro|].
  unfold determineAPIProvider.
  - destruct (nonempty (Getenv (lit "ANTHROPIC_API_KEY"))) eqn:E1;
      [discriminate|].
    destruct (nonempty (Getenv (lit "OPENAI_API_KEY"))) eqn:E2;
      [discriminate|].
    destruct (nonempty (Getenv (lit "OLLAMA_MODEL"))) eqn:E3;
      [discriminate|].
    intros _ []; simpl; now apply nonempty_false.
Qed.

End Providers.

Section Shell.

Lemma Split_sep_free sep l : ~ In sep l -> Split l sep = [l].
Proof.
  induction l as [|c l IH]; intros H; [reflexivity|].
  simpl. destruct (Ascii.eqb c sep) eqn:E.
  - apply Ascii.eqb_eq in E. subst c. exfalso. apply H. now left.
  - rewrite IH; [reflexivity|]. intros H'. apply H. now right.
Qed.

Lemma Split_sep_app sep a b :
  Split (a ++ sep :: b) sep = Split a sep ++ Split b sep.
Proof.
  induction a as [|x a IH]; simpl.
  - now rewrite Ascii.eqb_refl.
  - destruct (Ascii.eqb x sep); rewrite IH; [reflexivity|].
    pose proof (Split_nonempty a sep).
    destruct (Split a sep); [contradiction|reflexivity].
Qed.

(** Every text is free of the separator or ends, behind a last separator,
    with a text free of it. *)
Lemma last_separator sep (s : bytes) :
  ~ In sep s
  \/ exists dir name, s = dir ++ sep :: name /\ ~ In sep name.
Proof.
  induction s as [|c s IH]; [left; intros []|].
  destruct IH as [Hfree|(dir & name & -> & Hname)].
  - destruct (ascii_dec c sep) as [->|Hne].
    + right. exists [], s. split; [reflexivity|assumption].
    + left. intros [H|H]; [congruence|contradiction].
  - right. exists (c :: dir), name. split; [reflexivity|assumption].
Qed.

Lemma nth_last (parts : list bytes) (name : bytes) :
  nth (length (parts ++ [name]) - 1) (parts ++ [name]) [] = name.
Proof.
  rewrite length_app. simpl.
  replace (length parts + 1 - 1) with (length parts) by lia.
  rewrite app_nth2 by lia. now rewrite Nat.sub_diag.
Qed.

(** X11.  When SHELL is set to a non-empty value, the shell name is what
    follows the last slash of that value, or the whole value if it holds
    no slash: the value is a directory part, empty or ending in a slash,
    followed by the name, and the name holds no slash. *)
Theorem getShell_last_component (Getenv : bytes -> bytes) (GOOS : bytes) :
  Getenv (lit "SHELL") <> [] ->
  exists dir,
    Getenv (lit "SHELL") = dir ++ getShell Getenv GOOS
    /\ ~ In "/" (getShell Getenv GOOS)
    /\ (dir = [] \/ exists d, dir = d ++ lit "/").
Proof.
  intros Hne. unfold getShell.
  apply nonempty_true in Hne. rewrite Hne. cbn [negb].
  destruct (last_separator "/" (Getenv (lit "SHELL")))
    as [Hfree|(dir & name & -> & Hname)].
  - rewrite Split_sep_free by assumption. exists []. simpl. auto.
  - rewrite Split_sep_app, (Split_sep_free "/" name) by assumption.
    rewrite nth_last. exists (dir ++ lit "/"). split; [|split].
    + now rewrite <- app_assoc.
    + assumption.
    + right. now exists dir.
Qed.

Lemma getShell_last_component_witness :
  (fun _ : bytes => lit "/usr/local/bin/zsh") (lit "SHELL") <> []
  /\ exists dir,
       (fun _ : bytes => lit "/usr/local/bin/zsh") (lit "SHELL")
       = dir ++ getShell (fun _ => lit "/usr/local/bin/zsh") (lit "linux")
       /\ ~ In "/" (getShell (fun _ => lit "/usr/local/bin/zsh") (lit "linux"))
       /\ (dir = [] \/ exists d, dir = d ++ lit "/").
Proof.
  split; [discriminate|].
  apply (getShell_last_component (fun _ => lit "/usr/local/bin/zsh")
           (lit "linux")).
  discriminate.
Defined.

(** The index used by [getShell] is within the slice. *)
Lemma getShell_index_in_range (shell : bytes) :
  length (Split shell "/") - 1 < length (Split shell "/").
Proof.
  pose proof (Split_nonempty shell "/").
  destruct (Split shell "/"); [contradiction|simpl; lia].
Qed.

End Shell.

Section PassFallback.

Variable TrimSpace : bytes -> bytes.
Variable Getenv : bytes -> bytes.
Variable LookPath : bytes -> bytes * option error.
Variable Output : list bytes -> bytes * option error.

(** X12.  The variant that consults [pass] returns the key that [pass]
    holds exactly when the environment has none for Claude: when
    ANTHROPIC_API_KEY is empty or unset, [pass] is found, [pass show
    anthropic.com] succeeds and its output trimmed is not empty, Claude is
    chosen with that trimmed output as the key, whatever the other
    variables hold; in every other case the answer is that of the
    selection by the environment alone. *)
Theorem pass_fallback :
  (forall out,
      Getenv (lit "ANTHROPIC_API_KEY") = [] ->
      snd (LookPath (lit "pass")) = None ->
      Output [lit "pass"; lit "show"; lit "anthropic.com"] = (out, None) ->
      TrimSpace out <> [] ->
      MainGo.determineAPIProvider TrimSpace Getenv LookPath Output
      = (Claude, TrimSpace out, None))
  /\ (~ (Getenv (lit "ANTHROPIC_API_KEY") = []
         /\ snd (LookPath (lit "pass")) = None
         /\ exists out,
              Output [lit "pass"; lit "show"; lit "anthropic.com"] = (out, None)
              /\ TrimSpace out <> []) ->
      MainGo.determineAPIProvider TrimSpace Getenv LookPath Output
      = determineAPIProvider Getenv).
Proof.
  unfold MainGo.determineAPIProvider, MainGo.getAnthropicAPIKey,
    determineAPIProvider.
  split.
  - intros out E1 E2 E3 E4.
    rewrite E1, E2. cbn [nonempty Nat.ltb Nat.leb length]. rewrite E3.
    apply nonempty_true in E4. now rewrite E4.
  - intros Hnot.
    destruct (nonempty (Getenv (lit "ANTHROPIC_API_KEY"))) eqn:E1;
      [reflexivity|].
    apply nonempty_false in E1.
    destruct (snd (LookPath (lit "pass"))) as [e|] eqn:E2; [reflexivity|].
    cbn [Nat.ltb Nat.leb length].
    destruct (Output [lit "pass"; lit "show"; lit "anthropic.com"])
      as [out [e|]] eqn:E3; [reflexivity|].
    cbn [andb].
    destruct (nonempty (TrimSpace out)) eqn:E4; [|reflexivity].
    apply nonempty_true in E4. exfalso. apply Hnot.
    split; [assumption|]. split; [reflexivity|]. now exists out.
Qed.

End PassFallback.

Lemma pass_fallback_witness :
  let Getenv := fun v : bytes =>
    if bytes_eqb v (lit "OPENAI_API_KEY") then lit "sk-o" else [] in
  let found := fun _ : bytes => (lit "/usr/bin/pass", @None error) in
  let missing := fun _ : bytes =>
    (@nil ascii, Some (lit "executable file not found in $PATH")) in
  let Output := fun _ : list bytes => (lit "sk-ant-1" ++ [nl], @None error) in
  MainGo.determineAPIProvider TrimSpaceASCII Getenv found Output
  = (Claude, lit "sk-ant-1", None)
  /\ MainGo.determineAPIProvider TrimSpaceASCII Getenv missing Output
     = (OpenAI, lit "sk-o", None).
Proof.
  intros Getenv found missing Output. split.
  - apply (proj1 (pass_fallback TrimSpaceASCII Getenv found Output)
             (lit "sk-ant-1" ++ [nl]));
      [reflexivity|reflexivity|reflexivity|discriminate].
  - rewrite (proj2 (pass_fallback TrimSpaceASCII Getenv missing Output));
      [reflexivity|].
    intros (_ & H & _). discriminate H.
Defined.

Section Entry.

(** X13.  Without a credential nothing but the error is served: when none
    of the three variables is set to a non-empty value, every run with at
    least one argument, a request for help or for the version included,
    writes nothing to standard output, reports the missing key on standard
    error and ends with status 1. *)
Theorem main_needs_provider (Args : list bytes) (Getenv : bytes -> bytes)
  (rest : APIProvider -> bytes -> Result) :
  2 <= length Args ->
  (forall p, Getenv (credentialVariable p) = []) ->
  main Args Getenv rest
  = {| Stdout := [];
       Stderr :=
         (lit "Error: no API key or Ollama model found" ++ [nl])
         ++ (lit "Set one of the following environment variables:" ++ [nl])
         ++ (lit "  export ANTHROPIC_API_KEY=your_claude_api_key" ++ [nl])
         ++ (lit "  export OPENAI_API_KEY=your_openai_api_key" ++ [nl]);
       ExitCode := 1 |}.
Proof.
  intros Hargs Henv. unfold main.
  destruct (length Args <? 2)%nat eqn:E;
    [apply Nat.ltb_lt in E; lia|].
  apply determineAPIProvider_error_intro in Henv.
  rewrite Henv. reflexivity.
Qed.

End Entry.

Lemma main_needs_provider_witness :
  2 <= length [lit "llm"; lit "--help"]
  /\ (forall p, (fun _ : bytes => @nil ascii) (credentialVariable p) = [])
  /\ main [lit "llm"; lit "--help"] (fun _ => [])
       (fun _ _ => {| Stdout := []; Stderr := []; ExitCode := 0 |})
     = {| Stdout := [];
          Stderr :=
            (lit "Error: no API key or Ollama model found" ++ [nl])
            ++ (lit "Set one of the following environment variables:" ++ [nl])
            ++ (lit "  export ANTHROPIC_API_KEY=your_claude_api_key" ++ [nl])
            ++ (lit "  export OPENAI_API_KEY=your_openai_api_key" ++ [nl]);
          ExitCode := 1 |}.
Proof.
  split; [simpl; lia|]. split; [reflexivity|].
  apply (main_needs_provider [lit "llm"; lit "--help"] (fun _ => [])
           (fun _ _ => {| Stdout := []; Stderr := []; ExitCode := 0 |}));
    [simpl; lia|reflexivity].
Defined.

(** * The API clients *)

Section ClientProperties.

Variable TrimSpace : bytes -> bytes.
Variable MarshalClaude : ClaudeRequest -> bytes * option error.
Variable MarshalOpenAI : OpenAIRequest -> bytes * option error.
Variable MarshalOllama : OllamaRequest -> bytes * option error.
Variable UnmarshalClaude : bytes -> ClaudeResponse * option error.
Variable UnmarshalOpenAI : bytes -> OpenAIResponse * option error.
Variable UnmarshalOllama : bytes -> OllamaResponse * option error.
Variable Do : Request -> Response * option error.

(** X14.  A client answers either an error with an empty text or a text
    without error.  From Claude and from OpenAI the text is then trimmed
    and not empty; from Ollama it is the trimmed form of a response that
    was not empty before trimming. *)
Theorem clients_answer_or_error (credential prompt : bytes) :
  ((exists e,
      queryClaudeAPI TrimSpace MarshalClaude UnmarshalClaude Do
        credential prompt = ([], Some e))
   \/ (exists text,
         TrimSpace text <> []
         /\ queryClaudeAPI TrimSpace MarshalClaude UnmarshalClaude Do
              credential prompt = (TrimSpace text, None)))
  /\ ((exists e,
         queryOpenAIAPI TrimSpace MarshalOpenAI UnmarshalOpenAI Do
           credential prompt = ([], Some e))
      \/ (exists text,
            TrimSpace text <> []
            /\ queryOpenAIAPI TrimSpace MarshalOpenAI UnmarshalOpenAI Do
                 credential prompt = (TrimSpace text, None)))
  /\ ((exists e,
         queryOllamaAPI TrimSpace MarshalOllama UnmarshalOllama Do
           credential prompt = ([], Some e))
      \/ (exists text,
            text <> []
            /\ queryOllamaAPI TrimSpace MarshalOllama UnmarshalOllama Do
                 credential prompt = (TrimSpace text, None))).
Proof.
  split; [|split].
  - unfold queryClaudeAPI.
    destruct (MarshalClaude _) as [jsonData [e|]]; [left; now eexists|].
    cbn [NewRequest].
    destruct (Do _) as [resp [e|]]; [left; now eexists|].
    destruct (Response_Body resp) as [body [e|]]; [left; now eexists|].
    destruct (negb (Response_StatusCode resp =? StatusOK)%Z);
      [left; now eexists|].
    destruct (UnmarshalClaude body) as [claudeResp [e|]];
      [left; now eexists|].
    destruct (ClaudeResponse_Error claudeResp); [left; now eexists|].
    destruct (ClaudeResponse_Content claudeResp) as [|first others];
      [left; now eexists|].
    cbv zeta.
    destruct (nonempty (TrimSpace (ContentBlock_Text first))) eqn:E;
      [|left; now eexists].
    right. exists (ContentBlock_Text first). split; [|reflexivity].
    now apply nonempty_true.
  - unfold queryOpenAIAPI.
    destruct (MarshalOpenAI _) as [jsonData [e|]]; [left; now eexists|].
    cbn [NewRequest].
    destruct (Do _) as [resp [e|]]; [left; now eexists|].
    destruct (Response_Body resp) as [body [e|]]; [left; now eexists|].
    destruct (negb (Response_StatusCode resp =? StatusOK)%Z);
      [left; now eexists|].
    destruct (UnmarshalOpenAI body) as [openaiResp [e|]];
      [left; now eexists|].
    destruct (OpenAIResponse_Error openaiResp); [left; now eexists|].
    destruct (OpenAIResponse_Choices openaiResp) as [|first others];
      [left; now eexists|].
    cbv zeta.
    destruct (nonempty (TrimSpace (OpenAIMessage_Content
                                     (OpenAIChoice_Message first)))) eqn:E;
      [|left; now eexists].
    right. exists (OpenAIMessage_Content (OpenAIChoice_Message first)).
    split; [|reflexivity]. now apply nonempty_true.
  - unfold queryOllamaAPI.
    destruct (MarshalOllama _) as [jsonData [e|]]; [left; now eexists|].
    cbn [NewRequest].
    destruct (Do _) as [resp [e|]]; [left; now eexists|].
    destruct (Response_Body resp) as [body [e|]]; [left; now eexists|].
    destruct (negb (Response_StatusCode resp =? StatusOK)%Z);
      [left; now eexists|].
    destruct (UnmarshalOllama body) as [ollamaResp [e|]];
      [left; now eexists|].
    destruct (OllamaResponse_Error ollamaResp); [left; now eexists|].
    destruct (nonempty (OllamaResponse_Response ollamaResp)) eqn:E;
      [|left; now eexists].
    right. exists (OllamaResponse_Response ollamaResp).
    split; [|reflexivity]. now apply nonempty_true.
Qed.

(** X15.  The Ollama client accepts a blank answer: when the request is
    answered with status 200 and a body that parses to a response without
    error whose text is not empty but trims to nothing, the client returns
    the empty text and no error. *)
Theorem ollama_blank_answer (model prompt jsonData body : bytes)
  (resp : Response) (ollamaResp : OllamaResponse) :
  MarshalOllama {| OllamaRequest_Model := model;
                   OllamaRequest_Prompt := prompt;
                   OllamaRequest_Stream := false |} = (jsonData, None) ->
  Do (Header_Set (fst (NewRequest (lit "POST") ollamaAPIURL jsonData))
        (lit "Content-Type") (lit "application/json")) = (resp, None) ->
  Response_Body resp = (body, None) ->
  Response_StatusCode resp = StatusOK ->
  UnmarshalOllama body = (ollamaResp, None) ->
  OllamaResponse_Error ollamaResp = None ->
  OllamaResponse_Response ollamaResp <> [] ->
  TrimSpace (OllamaResponse_Response ollamaResp) = [] ->
  queryOllamaAPI TrimSpace MarshalOllama UnmarshalOllama Do model prompt
  = ([], None).
Proof.
  intros Hm Hdo Hbody Hstatus Hparse Herr Hne Htrim.
  unfold queryOllamaAPI. rewrite Hm. cbn [NewRequest fst] in *.
  rewrite Hdo, Hbody, Hstatus. cbn [Z.eqb Pos.eqb negb StatusOK].
  rewrite Hparse, Herr.
  apply nonempty_true in Hne. rewrite Hne. cbn [negb]. now rewrite Htrim.
Qed.

End ClientProperties.

Lemma ollama_blank_answer_witness :
  let Marshal := fun _ : OllamaRequest => (lit "{}", @None error) in
  let Unmarshal := fun _ : bytes =>
    ({| OllamaResponse_Response := lit "  " ++ [nl];
        OllamaResponse_Error := None |}, @None error) in
  let Do := fun _ : Request =>
    ({| Response_StatusCode := 200; Response_Body := (lit "{}", None) |},
     @None error) in
  let resp := {| Response_StatusCode := 200%Z;
                 Response_Body := (lit "{}", @None error) |} in
  let ollamaResp := {| OllamaResponse_Response := lit "  " ++ [nl];
                       OllamaResponse_Error := None |} in
  Marshal {| OllamaRequest_Model := lit "llama3";
             OllamaRequest_Prompt := lit "hi";
             OllamaRequest_Stream := false |} = (lit "{}", None)
  /\ Do (Header_Set (fst (NewRequest (lit "POST") ollamaAPIURL (lit "{}")))
           (lit "Content-Type") (lit "application/json")) = (resp, None)
  /\ Response_Body resp = (lit "{}", None)
  /\ Response_StatusCode resp = StatusOK
  /\ Unmarshal (lit "{}") = (ollamaResp, None)
  /\ OllamaResponse_Error ollamaResp = None
  /\ OllamaResponse_Response ollamaResp <> []
  /\ TrimSpaceASCII (OllamaResponse_Response ollamaResp) = []
  /\ queryOllamaAPI TrimSpaceASCII Marshal Unmarshal Do (lit "llama3") (lit "hi")
     = ([], None).
Proof.
  cbv zeta.
  repeat (split; [first [reflexivity|discriminate]|]).
  apply (ollama_blank_answer TrimSpaceASCII
           (fun _ => (lit "{}", None))
           (fun _ => ({| OllamaResponse_Response := lit "  " ++ [nl];
                         OllamaResponse_Error := None |}, None))
           (fun _ => ({| Response_StatusCode := 200;
                         Response_Body := (lit "{}", None) |}, None))
           (lit "llama3") (lit "hi") (lit "{}") (lit "{}")
           {| Response_StatusCode := 200; Response_Body := (lit "{}", None) |}
           {| OllamaResponse_Response := lit "  " ++ [nl];
              OllamaResponse_Error := None |});
    first [reflexivity|discriminate].
Defined.

(** * Lines that open no block construct *)

(** X16.  Block constructs are recognised at the first byte of a line
    only: a line whose first byte is not a hash, a backtick, a dash, an
    asterisk or a digit (an indented heading or list item, for one) is
    handed as a whole to the inline transformation. *)
Theorem block_constructs_start_the_line (c0 : ascii) (tl : bytes) :
  ~ In c0 (lit "#`-*") ->
  is_digit c0 = false ->
  renderLine (c0 :: tl) = renderInlineFormatting (c0 :: tl).
Proof.
  intros Hc0 Hdigit.
  assert (Hne : forall d, In d (lit "#`-*") -> Ascii.eqb c0 d = false).
  { intros d Hd. apply Ascii.eqb_neq. intros ->. now apply Hc0. }
  apply renderLine_plain.
  - intros H. apply Hc0. simpl in *. tauto.
  - assumption.
  - simpl. rewrite (Hne "`"); [reflexivity|simpl; tauto].
  - simpl. rewrite (Hne "*"); [reflexivity|simpl; tauto].
Qed.

Lemma block_constructs_start_the_line_witness :
  ~ In " " (lit "#`-*")
  /\ is_digit " " = false
  /\ renderLine (" " :: lit " - item") = renderInlineFormatting (" " :: lit " - item").
Proof.
  split; [not_in|]. split; [reflexivity|].
  apply (block_constructs_start_the_line " " (lit " - item"));
    [not_in|reflexivity].
Defined.

(** * The added functions on examples *)

Example decimal_of_Z_404 : decimal_of_Z 404 = lit "404".
Proof. vm_compute. reflexivity. Qed.

Example getShell_bash :
  getShell (fun _ => lit "/bin/bash") (lit "linux") = lit "bash".
Proof. vm_compute. reflexivity. Qed.

Example getShell_trailing_slash :
  getShell (fun _ => lit "/bin/") (lit "linux") = [].
Proof. vm_compute. reflexivity. Qed.

Example getShell_unset_windows :
  getShell (fun _ => []) (lit "windows") = lit "cmd/powershell".
Proof. vm_compute. reflexivity. Qed.

Example getShell_unset_elsewhere :
  getShell (fun _ => []) (lit "darwin") = lit "sh".
Proof. vm_compute. reflexivity. Qed.

Example determineAPIProvider_openai :
  determineAPIProvider
    (fun name => if bytes_eq_dec name (lit "ANTHROPIC_API_KEY") then []
                 else lit "k")
  = (OpenAI, lit "k", None).
Proof. vm_compute. reflexivity. Qed.

Example TrimSpaceASCII_example :
  TrimSpaceASCII (lit "  ls -la " ++ [nl]) = lit "ls -la".
Proof. vm_compute. reflexivity. Qed.
